(** * GitHub Discovery Platform: the automatic scanner and its project store

    A shallow embedding of [auto-scanner.js] (class [AutoScanner]) and of
    the project persistence of the backend ([saveProject], [getProjects])
    together with the properties the specification states about them.

    Conventions.
    - A JavaScript string is the list of its UTF-16 code units.
    - Integral JavaScript numbers that stay far below 2^53 (counters, page
      numbers, star counts, lengths, millisecond clocks) are [Z]; the
      utility score, which adds 0.5 and multiples of 0.2, is an IEEE-754
      binary64 value ([PrimFloat.float]), exactly as the engine computes.
    - String valued enumerations of the source (category, documentation
      quality, complexity, feature tags) are inductive types with their
      spelling given by a [*_str] function.
    - [String.prototype.toLowerCase] belongs to the runtime, not to the
      repository; the development is parametric in it. *)

From Stdlib Require Import ZArith NArith List Bool String Ascii Lia.
From Stdlib Require Import PrimFloat Uint63.
From stdpp Require Import base list.
Import ListNotations.

Local Open Scope Z_scope.

(** ** JavaScript strings and numbers *)

Module JS.

Definition jsstring : Type := list N.

(** A source literal, code unit by code unit. *)
Definition lit (s : string) : jsstring :=
  List.map N_of_ascii (list_ascii_of_string s).

(** [s.length] *)
Definition str_length (s : jsstring) : Z := Z.of_nat (List.length s).

Fixpoint startsWith (s p : jsstring) : bool :=
  match p, s with
  | [], _ => true
  | _ :: _, [] => false
  | c :: p', d :: s' => N.eqb c d && startsWith s' p'
  end.

(** [s.includes(p)] *)
Fixpoint includes (s p : jsstring) : bool :=
  startsWith s p ||
  match s with
  | [] => false
  | _ :: s' => includes s' p
  end.

(** [s.substring(0, n)] for a non-negative integral [n]. *)
Definition substring0 (s : jsstring) (n : Z) : jsstring :=
  firstn (Z.to_nat n) s.

(** [a === b] on strings. *)
Fixpoint str_eqb (a b : jsstring) : bool :=
  match a, b with
  | [], [] => true
  | c :: a', d :: b' => N.eqb c d && str_eqb a' b'
  | _, _ => false
  end.

(** Truthiness of a string: only the empty string is falsy. *)
Definition truthy (s : jsstring) : bool :=
  match s with [] => false | _ :: _ => true end.

(** Values a function of the source can resolve to, as far as the
    scanner is concerned. *)
Inductive value : Type :=
| Undefined
| Number (n : Z).

(** The integral number [n] as a binary64 value. *)
Definition to_float (n : Z) : float :=
  if n <? 0 then PrimFloat.opp (PrimFloat.of_uint63 (Uint63.of_Z (- n)))
  else PrimFloat.of_uint63 (Uint63.of_Z n).

(** [Math.min(a, b)] *)
Definition Math_min (a b : float) : float :=
  if PrimFloat.is_nan a || PrimFloat.is_nan b then PrimFloat.nan
  else if PrimFloat.ltb a b then a
  else if PrimFloat.ltb b a then b
  else if PrimFloat.get_sign a then a else b.

(** [x || 0] on numbers: zero and NaN are falsy. *)
Definition or_zero (x : float) : float :=
  if PrimFloat.is_nan x || PrimFloat.eqb x PrimFloat.zero
  then PrimFloat.zero else x.

(** The ASCII part of [toLowerCase]: [A]-[Z] become [a]-[z], every
    other code unit is kept. It instantiates the runtime function on
    the concrete documents used below. *)
Definition ascii_lower_unit (c : N) : N :=
  if (N.leb 65 c && N.leb c 90)%bool then (c + 32)%N else c.

Definition asciiToLowerCase (s : jsstring) : jsstring :=
  List.map ascii_lower_unit s.

End JS.

Import JS.

(** ** Data model *)

(** A repository summary as the search API returns it (read only). *)
Module Repo.
Record t : Type := mk {
  id : Z;
  name : jsstring;
  full_name : jsstring;
  description : option jsstring;   (* null when the repository has none *)
  language : option jsstring;
  stargazers_count : Z;
  topics : option (list jsstring)
}.
End Repo.

Inductive category : Type :=
| authentication | api | database | ui | framework | cli | testing | general.

Inductive feature : Type :=
| typescript | async | security | performance.

Inductive doc_quality : Type :=
| excellent | good | basic | poor.

Inductive complexity : Type :=
| high | medium | low.

Definition category_str (c : category) : jsstring :=
  match c with
  | authentication => lit "authentication"
  | api => lit "api"
  | database => lit "database"
  | ui => lit "ui"
  | framework => lit "framework"
  | cli => lit "cli"
  | testing => lit "testing"
  | general => lit "general"
  end.

Definition feature_str (f : feature) : jsstring :=
  match f with
  | typescript => lit "typescript"
  | async => lit "async"
  | security => lit "security"
  | performance => lit "performance"
  end.

Definition doc_quality_str (q : doc_quality) : jsstring :=
  match q with
  | excellent => lit "excellent"
  | good => lit "good"
  | basic => lit "basic"
  | poor => lit "poor"
  end.

Definition complexity_str (c : complexity) : jsstring :=
  match c with
  | high => lit "high"
  | medium => lit "medium"
  | low => lit "low"
  end.

(** The object [analyzeRepo] returns. *)
Module Analysis.
Record t : Type := mk {
  category : category;
  features : list feature;
  has_documentation : bool;
  documentation_quality : doc_quality;
  complexity : complexity;
  production_ready : bool
}.
End Analysis.

(** ** The scoring engine *)

Section Scoring.

(** [String.prototype.toLowerCase] of the runtime. *)
Variable toLowerCase : jsstring -> jsstring.

Definition assessDocQuality (readme : jsstring) : doc_quality :=
  let length := str_length readme in
  let hasInstall := includes (toLowerCase readme) (lit "install") in
  let hasUsage :=
    includes (toLowerCase readme) (lit "usage")
    || includes (toLowerCase readme) (lit "example") in
  if (3000 <? length) && hasInstall && hasUsage then excellent
  else if (1500 <? length) && (hasInstall || hasUsage) then good
  else if 500 <? length then basic
  else poor.

Definition assessComplexity (readme : jsstring) : complexity :=
  let length := str_length readme in
  if 5000 <? length then high
  else if 2000 <? length then medium
  else low.

(** The [if / else if] chain that picks the category. *)
Definition detectCategory (readmeLower : jsstring) : category :=
  if includes readmeLower (lit "auth")
     || includes readmeLower (lit "authentication") then authentication
  else if includes readmeLower (lit "api")
          || includes readmeLower (lit "rest") then api
  else if includes readmeLower (lit "database")
          || includes readmeLower (lit "orm") then database
  else if includes readmeLower (lit "ui")
          || includes readmeLower (lit "component") then ui
  else if includes readmeLower (lit "framework") then framework
  else if includes readmeLower (lit "cli")
          || includes readmeLower (lit "command") then cli
  else if includes readmeLower (lit "testing")
          || includes readmeLower (lit "test") then testing
  else general.

(** [features.push(tag)] when the term occurs. *)
Definition pushIf (b : bool) (f : feature) (features : list feature)
  : list feature :=
  if b then features ++ [f] else features.

Definition detectFeatures (readmeLower : jsstring) : list feature :=
  let features := [] in
  let features :=
    pushIf (includes readmeLower (lit "typescript")) typescript features in
  let features :=
    pushIf (includes readmeLower (lit "async")) async features in
  let features :=
    pushIf (includes readmeLower (lit "security")) security features in
  pushIf (includes readmeLower (lit "performance")) performance features.

(** The source also lower-cases [repo.description] into a local that
    is never read. *)
Definition analyzeRepo (repo : Repo.t) (readme : jsstring) : Analysis.t :=
  let readmeLower := toLowerCase readme in
  {| Analysis.category := detectCategory readmeLower;
     Analysis.features := detectFeatures readmeLower;
     Analysis.has_documentation := 500 <? str_length readme;
     Analysis.documentation_quality := assessDocQuality readme;
     Analysis.complexity := assessComplexity readme;
     Analysis.production_ready :=
       includes readmeLower (lit "production")
       || (1000 <? Repo.stargazers_count repo) |}.

Definition calculateUtilityScore
  (repo : Repo.t) (readme : jsstring) (analysis : Analysis.t) : float :=
  let score := 5%float in
  (* Stars bonus *)
  let score :=
    if 10000 <? Repo.stargazers_count repo then (score + 2)%float
    else if 1000 <? Repo.stargazers_count repo then (score + 1)%float
    else if 100 <? Repo.stargazers_count repo then (score + 0.5)%float
    else score in
  (* Documentation bonus *)
  let score :=
    match Analysis.documentation_quality analysis with
    | excellent => (score + 1.5)%float
    | good => (score + 1)%float
    | basic => (score + 0.5)%float
    | poor => score
    end in
  (* Features bonus: [features.length * 0.2], the literal 0.2 being the
     binary64 value 0x1.999999999999ap-3 *)
  let score :=
    (score
     + to_float (Z.of_nat (List.length (Analysis.features analysis)))
       * 0x1.999999999999ap-3)%float in
  (* Production ready *)
  let score :=
    if Analysis.production_ready analysis then (score + 1)%float
    else score in
  Math_min score 10%float.

End Scoring.

(** ** [JSON.stringify] on the values the backend serialises *)

Module JSON.

Definition hex_digit (n : N) : N :=
  if (n <? 10)%N then (48 + n)%N else (87 + n)%N.

(** [\uXXXX] with lower-case hexadecimal digits. *)
Definition unicode_escape (c : N) : jsstring :=
  [92%N; 117%N;
   hex_digit (N.shiftr c 12 mod 16); hex_digit (N.shiftr c 8 mod 16);
   hex_digit (N.shiftr c 4 mod 16); hex_digit (c mod 16)].

Definition is_high_surrogate (c : N) : bool :=
  (N.leb 55296 c && N.leb c 56319)%bool.

Definition is_low_surrogate (c : N) : bool :=
  (N.leb 56320 c && N.leb c 57343)%bool.

(** One code unit that is not part of a surrogate pair. *)
Definition quote_unit (c : N) : jsstring :=
  if N.eqb c 8 then [92%N; 98%N]
  else if N.eqb c 9 then [92%N; 116%N]
  else if N.eqb c 10 then [92%N; 110%N]
  else if N.eqb c 12 then [92%N; 102%N]
  else if N.eqb c 13 then [92%N; 114%N]
  else if N.eqb c 34 then [92%N; 34%N]
  else if N.eqb c 92 then [92%N; 92%N]
  else if (c <? 32)%N then unicode_escape c
  else if is_high_surrogate c || is_low_surrogate c then unicode_escape c
  else [c].

Fixpoint quote_units (s : jsstring) : jsstring :=
  match s with
  | [] => []
  | c :: s' =>
      if is_high_surrogate c then
        match s' with
        | d :: s'' =>
            if is_low_surrogate d then c :: d :: quote_units s''
            else quote_unit c ++ quote_units s'
        | [] => quote_unit c
        end
      else quote_unit c ++ quote_units s'
  end.

(** A string value. *)
Definition quote (s : jsstring) : jsstring :=
  [34%N] ++ quote_units s ++ [34%N].

Fixpoint join (sep : jsstring) (l : list jsstring) : jsstring :=
  match l with
  | [] => []
  | [x] => x
  | x :: l' => x ++ sep ++ join sep l'
  end.

(** An array of strings. *)
Definition stringify_strings (l : list jsstring) : jsstring :=
  lit "[" ++ join (lit ",") (List.map quote l) ++ lit "]".

Definition stringify_bool (b : bool) : jsstring :=
  if b then lit "true" else lit "false".

Definition member (key value : jsstring) : jsstring :=
  quote key ++ lit ":" ++ value.

(** The analysis object, its keys in creation order. *)
Definition stringify_analysis (a : Analysis.t) : jsstring :=
  lit "{" ++
  join (lit ",")
    [ member (lit "category") (quote (category_str (Analysis.category a)));
      member (lit "features")
        (stringify_strings (List.map feature_str (Analysis.features a)));
      member (lit "has_documentation")
        (stringify_bool (Analysis.has_documentation a));
      member (lit "documentation_quality")
        (quote (doc_quality_str (Analysis.documentation_quality a)));
      member (lit "complexity")
        (quote (complexity_str (Analysis.complexity a)));
      member (lit "production_ready")
        (stringify_bool (Analysis.production_ready a)) ] ++
  lit "}".

End JSON.

(** ** The project store *)

(** The object [processRepo] hands to [saveProject]. *)
Module ProjectData.
Record t : Type := mk {
  github_id : Z;
  name : jsstring;
  full_name : jsstring;
  description : jsstring;
  language : option jsstring;
  stars : Z;
  topics : list jsstring;
  readme_content : jsstring;
  ai_analysis : Analysis.t;
  utility_score : float;
  category : jsstring
}.
End ProjectData.

(** A row of table [projects]. The surrogate key [id] is left out: no
    operation modelled here reads it. Timestamps are seconds. *)
Module Project.
Record t : Type := mk {
  github_id : Z;                 (* INTEGER UNIQUE NOT NULL *)
  name : jsstring;               (* TEXT NOT NULL *)
  full_name : jsstring;          (* TEXT NOT NULL *)
  description : jsstring;
  language : option jsstring;
  stars : Z;
  topics : jsstring;             (* JSON text *)
  readme_content : jsstring;
  ai_analysis : jsstring;        (* JSON text *)
  utility_score : float;
  category : jsstring;
  created_at : Z;                (* DEFAULT CURRENT_TIMESTAMP *)
  scanned_at : Z                 (* DEFAULT CURRENT_TIMESTAMP *)
}.
End Project.

(** The row the [VALUES] clause of [saveProject] proposes; both
    timestamps take their default. *)
Definition excluded_row (now : Z) (projectData : ProjectData.t) : Project.t :=
  {| Project.github_id := ProjectData.github_id projectData;
     Project.name := ProjectData.name projectData;
     Project.full_name := ProjectData.full_name projectData;
     Project.description := ProjectData.description projectData;
     Project.language := ProjectData.language projectData;
     Project.stars := ProjectData.stars projectData;
     Project.topics := JSON.stringify_strings (ProjectData.topics projectData);
     Project.readme_content := ProjectData.readme_content projectData;
     Project.ai_analysis :=
       JSON.stringify_analysis (ProjectData.ai_analysis projectData);
     Project.utility_score := or_zero (ProjectData.utility_score projectData);
     Project.category := ProjectData.category projectData;
     Project.created_at := now;
     Project.scanned_at := now |}.

(** [ON CONFLICT(github_id)] *)
Definition conflicts (excluded r : Project.t) : bool :=
  Project.github_id r =? Project.github_id excluded.

(** [DO UPDATE SET stars = excluded.stars, readme_content = ...,
    ai_analysis = ..., utility_score = ..., scanned_at = CURRENT_TIMESTAMP] *)
Definition do_update (now : Z) (excluded r : Project.t) : Project.t :=
  {| Project.github_id := Project.github_id r;
     Project.name := Project.name r;
     Project.full_name := Project.full_name r;
     Project.description := Project.description r;
     Project.language := Project.language r;
     Project.stars := Project.stars excluded;
     Project.topics := Project.topics r;
     Project.readme_content := Project.readme_content excluded;
     Project.ai_analysis := Project.ai_analysis excluded;
     Project.utility_score := Project.utility_score excluded;
     Project.category := Project.category r;
     Project.created_at := Project.created_at r;
     Project.scanned_at := now |}.

(** [INSERT INTO projects (...) VALUES (...) ON CONFLICT(github_id) DO
    UPDATE SET ...] executed at store time [now]. *)
Definition upsert (now : Z) (excluded : Project.t) (rows : list Project.t)
  : list Project.t :=
  if existsb (conflicts excluded) rows
  then List.map
         (fun r => if conflicts excluded r then do_update now excluded r else r)
         rows
  else rows ++ [excluded].

(** What the store answers to [execute]. *)
Inductive db_reply : Type :=
| Executes (current_timestamp : Z)
| Rejects.

Inductive save_result : Type :=
| SaveSuccess          (* { success: true } *)
| SaveFailure.         (* { success: false, error } *)

(** The arguments [topics] and [ai_analysis] are an array and an object
    here, hence truthy: their [|| []] and [|| {}] fall-backs are not
    taken. *)
Definition saveProject (reply : db_reply) (projectData : ProjectData.t)
  (rows : list Project.t) : save_result * list Project.t :=
  match reply with
  | Executes now => (SaveSuccess, upsert now (excluded_row now projectData) rows)
  | Rejects => (SaveFailure, rows)
  end.

(** The [language] and [category] conditions of [getProjects]; the text
    search, the ordering by score and the limit are not modelled. *)
Module Filters.
Record t : Type := mk {
  language : option jsstring;
  category : option jsstring
}.
End Filters.

Definition filter_set (f : option jsstring) : bool :=
  match f with
  | Some s => truthy s
  | None => false
  end.

Definition sql_eq_text (column : option jsstring) (arg : option jsstring)
  : bool :=
  match column, arg with
  | Some a, Some b => str_eqb a b
  | _, _ => false
  end.

Definition where_clause (filters : Filters.t) (r : Project.t) : bool :=
  (if filter_set (Filters.language filters)
   then sql_eq_text (Project.language r) (Filters.language filters) else true)
  &&
  (if filter_set (Filters.category filters)
   then sql_eq_text (Some (Project.category r)) (Filters.category filters)
   else true).

Definition getProjects (filters : Filters.t) (rows : list Project.t)
  : list Project.t :=
  List.filter (where_clause filters) rows.

(** ** The scanner and its environment *)

(** [parseInt(s)] with no radix: leading white space, an optional sign, a
    hexadecimal prefix, then the longest run of digits. [None] is NaN. *)
Module ParseInt.

Definition is_white_space (c : N) : bool :=
  existsb (N.eqb c)
    [9; 10; 11; 12; 13; 32; 160; 5760; 8232; 8233; 8239; 8287; 12288; 65279]%N
  || (N.leb 8192 c && N.leb c 8202)%bool.

Fixpoint trim_start (s : jsstring) : jsstring :=
  match s with
  | c :: s' => if is_white_space c then trim_start s' else s
  | [] => []
  end.

Definition digit_value (c : N) : option Z :=
  if (N.leb 48 c && N.leb c 57)%bool then Some (Z.of_N c - 48)
  else if (N.leb 97 c && N.leb c 122)%bool then Some (Z.of_N c - 87)
  else if (N.leb 65 c && N.leb c 90)%bool then Some (Z.of_N c - 55)
  else None.

(** The digits read so far are worth [acc]; [seen] tells whether there
    was one. *)
Fixpoint digits (radix : Z) (s : jsstring) (seen : bool) (acc : Z)
  : option Z :=
  match s with
  | c :: s' =>
      match digit_value c with
      | Some d =>
          if d <? radix then digits radix s' true (acc * radix + d)
          else if seen then Some acc else None
      | None => if seen then Some acc else None
      end
  | [] => if seen then Some acc else None
  end.

Definition unsigned (s : jsstring) : option Z :=
  match s with
  | 48%N :: x :: s' =>
      if N.eqb x 120 || N.eqb x 88 then digits 16 s' false 0
      else digits 10 s false 0
  | _ => digits 10 s false 0
  end.

Definition parseInt (s : jsstring) : option Z :=
  match trim_start s with
  | 45%N :: s' => option_map Z.opp (unsigned s')
  | 43%N :: s' => unsigned s'
  | s' => unsigned s'
  end.

End ParseInt.

(** The response of the search request. [items] is [None] when reading
    the body rejects, [Some None] when the body has no [items]. *)
Module Response.
Record t : Type := mk {
  status : Z;
  x_ratelimit_reset : option jsstring;
  items : option (option (list Repo.t))
}.

Definition ok (r : t) : bool := (200 <=? status r) && (status r <=? 299).
End Response.

Inductive fetch_result : Type :=
| Rejected
| Resolved (response : Response.t).

(** The README request: [content] is the decoded text, [None] when the
    body cannot be read or decoded. *)
Inductive readme_fetch : Type :=
| ReadmeRejected
| ReadmeResponse (ok : bool) (content : option jsstring).

(** What the environment answers while one repository is processed. *)
Record item_world : Type := {
  readme : readme_fetch;
  store : db_reply
}.

(** What the environment answers during one turn of the page loop. *)
Record tick : Type := {
  reply : fetch_result;
  date_now : Z;                       (* Date.now(), milliseconds *)
  item : jsstring -> item_world       (* by full name *)
}.

(** The environment of one language scan. [escapes] lets an exception
    leave [scanLanguage]: none of its statements outside the [try] block
    raises in practice, and the [try / catch / finally] of [runScan] is
    the defence against the unexpected one. *)
Record episode : Type := {
  ticks : list tick;
  escapes : bool
}.

Definition offline_world : item_world :=
  {| readme := ReadmeRejected; store := Rejects |}.

(** Once the recorded ticks are used up the network is down. *)
Definition offline : tick :=
  {| reply := Rejected; date_now := 0; item := fun _ => offline_world |}.

Definition offline_episode : episode :=
  {| ticks := []; escapes := false |}.

Inductive error_site : Type :=
| ApiError (status : Z)
| ScanningPage (language : jsstring) (page : Z)
| SavingProject
| ScanFailed.

(** The observable effects, in program order. *)
Inductive event : Type :=
| SearchRequest (language : jsstring) (per_page page : Z)
| ReadmeRequest (fullName : jsstring)
| StoreRequest (projectData : ProjectData.t)
| Sleep (ms : option Z)
| ConsoleError (site : error_site)
| ScannedLog (language : jsstring) (scannedCount : Z).

(** The fields of an [AutoScanner]. *)
Module Scanner.
Record t : Type := mk {
  isScanning : bool;
  lastScanTime : option Z;
  totalScanned : Z;
  scanInterval : option Z;
  nextScanTime : option Z
}.

(** The constructor. *)
Definition new : t := mk false None 0 None None.
End Scanner.

(** The scanner, the table behind its backend, and the effects so far. *)
Record sys : Type := {
  scanner : Scanner.t;
  projects : list Project.t;
  trace : list event
}.

Definition emit (e : event) (st : sys) : sys :=
  {| scanner := scanner st; projects := projects st;
     trace := trace st ++ [e] |}.

Definition set_projects (rows : list Project.t) (st : sys) : sys :=
  {| scanner := scanner st; projects := rows; trace := trace st |}.

Definition set_isScanning (b : bool) (st : sys) : sys :=
  {| scanner :=
       {| Scanner.isScanning := b;
          Scanner.lastScanTime := Scanner.lastScanTime (scanner st);
          Scanner.totalScanned := Scanner.totalScanned (scanner st);
          Scanner.scanInterval := Scanner.scanInterval (scanner st);
          Scanner.nextScanTime := Scanner.nextScanTime (scanner st) |};
     projects := projects st; trace := trace st |}.

Definition set_lastScanTime (t : Z) (st : sys) : sys :=
  {| scanner :=
       {| Scanner.isScanning := Scanner.isScanning (scanner st);
          Scanner.lastScanTime := Some t;
          Scanner.totalScanned := Scanner.totalScanned (scanner st);
          Scanner.scanInterval := Scanner.scanInterval (scanner st);
          Scanner.nextScanTime := Scanner.nextScanTime (scanner st) |};
     projects := projects st; trace := trace st |}.

(** [this.totalScanned++] *)
Definition incr_totalScanned (st : sys) : sys :=
  {| scanner :=
       {| Scanner.isScanning := Scanner.isScanning (scanner st);
          Scanner.lastScanTime := Scanner.lastScanTime (scanner st);
          Scanner.totalScanned := Scanner.totalScanned (scanner st) + 1;
          Scanner.scanInterval := Scanner.scanInterval (scanner st);
          Scanner.nextScanTime := Scanner.nextScanTime (scanner st) |};
     projects := projects st; trace := trace st |}.

Definition fetchReadme (r : readme_fetch) : option jsstring :=
  match r with
  | ReadmeRejected => None
  | ReadmeResponse false _ => None
  | ReadmeResponse true None => None
  | ReadmeResponse true (Some content) => Some content
  end.

(** How a call ends. *)
Inductive completion : Type :=
| Returned (v : value)
| Thrown.

Definition SCAN_LANGUAGES : list jsstring :=
  [lit "JavaScript"; lit "Python"; lit "Java"; lit "TypeScript"; lit "Go"].

Definition REPOS_PER_LANGUAGE : Z := 600.

Definition perPage : Z := 100.

(** The locals of [scanLanguage]. *)
Record locals : Type := {
  scannedCount : Z;
  page : Z
}.

Inductive signal : Type :=
| Continue
| Break.

(** [resetTime ? (parseInt(resetTime) * 1000 - Date.now()) : 60000] *)
Definition waitTime (resetTime : option jsstring) (now : Z) : option Z :=
  match resetTime with
  | Some h =>
      if truthy h
      then option_map (fun reset => reset * 1000 - now) (ParseInt.parseInt h)
      else Some 60000
  | None => Some 60000
  end.

Section Scan.

Variable toLowerCase : jsstring -> jsstring.

(** The object literal [processRepo] builds. *)
Definition projectData (repo : Repo.t) (readme : jsstring)
  : ProjectData.t :=
  let analysis := analyzeRepo toLowerCase repo readme in
  {| ProjectData.github_id := Repo.id repo;
     ProjectData.name := Repo.name repo;
     ProjectData.full_name := Repo.full_name repo;
     ProjectData.description :=
       match Repo.description repo with
       | Some d => d
       | None => []
       end;
     ProjectData.language := Repo.language repo;
     ProjectData.stars := Repo.stargazers_count repo;
     ProjectData.topics :=
       match Repo.topics repo with
       | Some l => l
       | None => []
       end;
     ProjectData.readme_content := substring0 readme 10000;
     ProjectData.ai_analysis := analysis;
     ProjectData.utility_score := calculateUtilityScore repo readme analysis;
     ProjectData.category := category_str (Analysis.category analysis) |}.

(** Its [try] block has no statement that raises once [fetchReadme]
    and [saveProject] have caught their own failures, so the call
    always returns. *)
Definition processRepo (w : item_world) (repo : Repo.t) (st : sys) : sys :=
  let st := emit (ReadmeRequest (Repo.full_name repo)) st in
  match fetchReadme (readme w) with
  | None => st
  | Some readme =>
      if negb (truthy readme) then st
      else
        let projectData := projectData repo readme in
        let st := emit (StoreRequest projectData) st in
        match saveProject (store w) projectData (projects st) with
        | (SaveSuccess, rows) => set_projects rows st
        | (SaveFailure, rows) =>
            emit (ConsoleError SavingProject) (set_projects rows st)
        end
  end.

(** [for (const repo of data.items) { ... }] *)
Fixpoint forItems (tk : tick) (maxRepos : Z) (items : list Repo.t)
  (scannedCount : Z) (st : sys) : Z * sys :=
  match items with
  | [] => (scannedCount, st)
  | repo :: items' =>
      if maxRepos <=? scannedCount then (scannedCount, st)
      else
        let st := processRepo (item tk (Repo.full_name repo)) repo st in
        let scannedCount := scannedCount + 1 in
        let st := incr_totalScanned st in
        let st := emit (Sleep (Some 500)) st in
        forItems tk maxRepos items' scannedCount st
  end.

(** One turn of [while (scannedCount < maxRepos) { try { ... } catch
    { ... break } }]. *)
Definition iteration (language : jsstring) (maxRepos : Z) (tk : tick)
  (l : locals) (st : sys) : signal * locals * sys :=
  let st := emit (SearchRequest language perPage (page l)) st in
  match reply tk with
  | Rejected =>
      (Break, l, emit (ConsoleError (ScanningPage language (page l))) st)
  | Resolved response =>
      if negb (Response.ok response) then
        let st := emit (ConsoleError (ApiError (Response.status response))) st in
        if Response.status response =? 403 then
          let resetTime := Response.x_ratelimit_reset response in
          (Continue, l, emit (Sleep (waitTime resetTime (date_now tk))) st)
        else (Break, l, st)
      else
        match Response.items response with
        | None =>
            (Break, l,
             emit (ConsoleError (ScanningPage language (page l))) st)
        | Some None => (Break, l, st)
        | Some (Some []) => (Break, l, st)
        | Some (Some items) =>
            let '(scannedCount, st) :=
              forItems tk maxRepos items (scannedCount l) st in
            (Continue,
             {| scannedCount := scannedCount; page := page l + 1 |}, st)
        end
  end.

Fixpoint whileLoop (language : jsstring) (maxRepos : Z) (ticks : list tick)
  (l : locals) (st : sys) : locals * sys :=
  if scannedCount l <? maxRepos then
    match ticks with
    | [] =>
        let '(_, l, st) := iteration language maxRepos offline l st in
        (l, st)
    | tk :: ticks' =>
        match iteration language maxRepos tk l st with
        | (Continue, l, st) => whileLoop language maxRepos ticks' l st
        | (Break, l, st) => (l, st)
        end
    end
  else (l, st).

Definition scanLanguage (language : jsstring) (maxRepos : Z) (ep : episode)
  (st : sys) : completion * sys :=
  let '(l, st) :=
    whileLoop language maxRepos (ticks ep)
      {| scannedCount := 0; page := 1 |} st in
  if escapes ep then (Thrown, st)
  else (Returned Undefined, emit (ScannedLog language (scannedCount l)) st).

(** [for (const language of SCAN_LANGUAGES) { ... }], inside the [try]
    block of [runScan]. The scans take their episodes in order. *)
Fixpoint forLanguages (languages : list jsstring) (eps : list episode)
  (st : sys) : completion * sys :=
  match languages with
  | [] => (Returned Undefined, st)
  | language :: languages' =>
      match
        scanLanguage language REPOS_PER_LANGUAGE (hd offline_episode eps) st
      with
      | (Thrown, st) => (Thrown, st)
      | (Returned _, st) =>
          forLanguages languages' (tl eps) (emit (Sleep (Some 5000)) st)
      end
  end.

(** The guard and the flag, which run without an [await] in between. *)
Definition runScan_enter (st : sys) : option sys :=
  if Scanner.isScanning (scanner st) then None
  else Some (set_isScanning true st).

(** The [try / catch / finally] statement; [finished] is the value of
    [new Date()]. *)
Definition runScan_body (eps : list episode) (finished : Z) (st : sys)
  : sys :=
  let '(c, st) := forLanguages SCAN_LANGUAGES eps st in
  let st :=
    match c with
    | Returned _ => set_lastScanTime finished st
    | Thrown => emit (ConsoleError ScanFailed) st
    end in
  set_isScanning false st.

Definition runScan (eps : list episode) (finished : Z) (st : sys)
  : value * sys :=
  match runScan_enter st with
  | None => (Undefined, st)
  | Some st => (Undefined, runScan_body eps finished st)
  end.

End Scan.

(** ** The event loop

    [runScan] is an async function: between two of its [await]s other
    callbacks run, among them further calls of [runScan] (the start-up
    scan, the 12 hour timer). An activation that passed the guard is
    suspended with the languages it still has to scan. One turn of an
    activation is taken at the granularity of one language scan; the
    turns inside [scanLanguage] touch neither the flag nor the list of
    activations. *)

Record machine : Type := {
  state : sys;
  pending : list (list jsstring)
}.

Inductive action : Type :=
| Call                                             (* runScan() is called *)
| Resume (i : nat) (ep : episode) (finished : Z).  (* activation i goes on *)

Section EventLoop.

Variable toLowerCase : jsstring -> jsstring.

(** An activation runs up to its next suspension ([Some]) or through
    [catch] and [finally] to its end ([None]). *)
Definition resume (languages : list jsstring) (ep : episode) (finished : Z)
  (st : sys) : sys * option (list jsstring) :=
  match languages with
  | [] => (set_isScanning false (set_lastScanTime finished st), None)
  | language :: languages' =>
      match scanLanguage toLowerCase language REPOS_PER_LANGUAGE ep st with
      | (Thrown, st) =>
          (set_isScanning false (emit (ConsoleError ScanFailed) st), None)
      | (Returned _, st) => (emit (Sleep (Some 5000)) st, Some languages')
      end
  end.

Definition step (m : machine) (a : action) : machine :=
  match a with
  | Call =>
      match runScan_enter (state m) with
      | None => m
      | Some st => {| state := st; pending := pending m ++ [SCAN_LANGUAGES] |}
      end
  | Resume i ep finished =>
      match pending m !! i with
      | None => m
      | Some languages =>
          match resume languages ep finished (state m) with
          | (st, Some languages') =>
              {| state := st; pending := <[i := languages']> (pending m) |}
          | (st, None) => {| state := st; pending := delete i (pending m) |}
          end
      end
  end.

Definition run (actions : list action) (m : machine) : machine :=
  fold_left step actions m.

(** One activation on its own, from its first language to its end. *)
Fixpoint resume_all (languages : list jsstring) (eps : list episode)
  (finished : Z) (st : sys) : sys :=
  match languages with
  | [] => fst (resume [] offline_episode finished st)
  | _ :: languages' =>
      match resume languages (hd offline_episode eps) finished st with
      | (st, Some _) => resume_all languages' (tl eps) finished st
      | (st, None) => st
      end
  end.

End EventLoop.

(** A freshly constructed scanner over a table with [rows]. *)
Definition boot (rows : list Project.t) : machine :=
  {| state := {| scanner := Scanner.new; projects := rows; trace := [] |};
     pending := [] |}.

(** ** Notions used to state the properties *)

(** The category rule in the specification's words: term groups in a
    fixed priority order, the first group with a term in the text wins,
    [general] when none has. *)
Definition term_groups : list (category * list jsstring) :=
  [ (authentication, [lit "auth"; lit "authentication"]);
    (api, [lit "api"; lit "rest"]);
    (database, [lit "database"; lit "orm"]);
    (ui, [lit "ui"; lit "component"]);
    (framework, [lit "framework"]);
    (cli, [lit "cli"; lit "command"]);
    (testing, [lit "testing"; lit "test"]) ].

Definition group_matches (text : jsstring) (terms : list jsstring) : bool :=
  existsb (includes text) terms.

Fixpoint first_match (text : jsstring)
  (groups : list (category * list jsstring)) : category :=
  match groups with
  | [] => general
  | (c, terms) :: groups' =>
      if group_matches text terms then c else first_match text groups'
  end.

(** [5 <= x <= 10] on binary64 values. *)
Definition in_score_range (x : float) : Prop :=
  PrimFloat.leb 5 x = true /\ PrimFloat.leb x 10 = true.

(** The rows of a table that carry a given external identifier. *)
Definition rows_of (gid : Z) (rows : list Project.t) : list Project.t :=
  List.filter (fun r => Project.github_id r =? gid) rows.

(** The UNIQUE constraint on [github_id]. *)
Definition unique_ids (rows : list Project.t) : Prop :=
  NoDup (List.map Project.github_id rows).


(** Enrichment attempts: every call of [processRepo] starts with its
    README request. *)
Fixpoint attempts (tr : list event) : Z :=
  match tr with
  | [] => 0
  | ReadmeRequest _ :: tr' => 1 + attempts tr'
  | _ :: tr' => attempts tr'
  end.

(** The objects handed to the store. *)
Fixpoint store_requests (tr : list event) : list ProjectData.t :=
  match tr with
  | [] => []
  | StoreRequest p :: tr' => p :: store_requests tr'
  | _ :: tr' => store_requests tr'
  end.

(** The counts the language scans reported when they returned. *)
Fixpoint reported (tr : list event) : Z :=
  match tr with
  | [] => 0
  | ScannedLog _ n :: tr' => n + reported tr'
  | _ :: tr' => reported tr'
  end.

Fixpoint console_errors (tr : list event) : list error_site :=
  match tr with
  | [] => []
  | ConsoleError e :: tr' => e :: console_errors tr'
  | _ :: tr' => console_errors tr'
  end.

(** [st'] is [st] after [n] enrichment attempts of which the language
    scans reported [k]: the flag is untouched, the lifetime counter and
    the attempts in the trace grew by [n], the reported counts by [k]. *)
Definition advances (n k : Z) (st st' : sys) : Prop :=
  0 <= n
  /\ Scanner.isScanning (scanner st') = Scanner.isScanning (scanner st)
  /\ Scanner.totalScanned (scanner st')
     = Scanner.totalScanned (scanner st) + n
  /\ attempts (trace st') = attempts (trace st) + n
  /\ reported (trace st') = reported (trace st) + k.

(** An event that is neither a README request nor a scan report. *)
Definition silent (e : event) : Prop :=
  attempts [e] = 0 /\ reported [e] = 0.

(** Concrete inputs. *)
Module Sample.

Definition repo (id stars : Z) : Repo.t :=
  {| Repo.id := id; Repo.name := lit "kit"; Repo.full_name := lit "acme/kit";
     Repo.description := None; Repo.language := Some (lit "Go");
     Repo.stargazers_count := stars; Repo.topics := None |}.

Definition auth_api_doc : jsstring := lit "OAuth helpers for a REST API".

Definition api_doc : jsstring := lit "A tiny REST API server".

Definition world (content : option jsstring) (now : Z) : item_world :=
  {| readme := ReadmeResponse true content; store := Executes now |}.

Definition page_of (items : list Repo.t) (content : option jsstring)
  : tick :=
  {| reply :=
       Resolved
         {| Response.status := 200; Response.x_ratelimit_reset := None;
            Response.items := Some (Some items) |};
     date_now := 1000;
     item := fun _ => world content 7 |}.

Definition throttled (reset : option jsstring) (now : Z) : tick :=
  {| reply :=
       Resolved
         {| Response.status := 403; Response.x_ratelimit_reset := reset;
            Response.items := None |};
     date_now := now;
     item := fun _ => offline_world |}.

Definition idle (rows : list Project.t) : sys :=
  {| scanner := Scanner.new; projects := rows; trace := [] |}.

(** A scanner in the middle of a run. *)
Definition busy (rows : list Project.t) : sys :=
  set_isScanning true (idle rows).

(** One page with two repositories, both with a README. *)
Definition go_episode : episode :=
  {| ticks := [page_of [repo 1 1500; repo 2 50] (Some auth_api_doc)];
     escapes := false |}.

(** The same page, after which the unexpected exception escapes. *)
Definition failing_episode : episode :=
  {| ticks := ticks go_episode; escapes := true |}.

(** The table after a first scan stored repository 1 with [api_doc]. *)
Definition first_scan_rows : list Project.t :=
  projects
    (processRepo asciiToLowerCase (world (Some api_doc) 7) (repo 1 60)
       (idle [])).

(** What that first scan handed to the store. *)
Definition first : ProjectData.t :=
  projectData asciiToLowerCase (repo 1 60) api_doc.

(** What a later scan of the same repository hands to the store once
    its README reads [auth_api_doc]. *)
Definition rescan : ProjectData.t :=
  projectData asciiToLowerCase (repo 1 75) auth_api_doc.

End Sample.

(** ** Further notions *)

(** The feature tags in detection order. *)
Definition all_features : list feature :=
  [typescript; async; security; performance].

(** The term groups of [analyzeRepo] without the terms that contain
    another term of their group. *)
Definition short_term_groups : list (category * list jsstring) :=
  [ (authentication, [lit "auth"]);
    (api, [lit "api"; lit "rest"]);
    (database, [lit "database"; lit "orm"]);
    (ui, [lit "ui"; lit "component"]);
    (framework, [lit "framework"]);
    (cli, [lit "cli"; lit "command"]);
    (testing, [lit "test"]) ].

(** The languages whose scans reported, in order. *)
Fixpoint logged_languages (tr : list event) : list jsstring :=
  match tr with
  | [] => []
  | ScannedLog language _ :: tr' => language :: logged_languages tr'
  | _ :: tr' => logged_languages tr'
  end.

(** [st'] comes from [st] by steps taken inside a language scan: the
    scanner fields other than the flag and the lifetime counter are
    kept, the table changed along [R], and the trace grew by events
    that contain no scan report and at most one store call per README
    request. *)
Definition within_scan (R : list Project.t -> list Project.t -> Prop)
  (st st' : sys) : Prop :=
  Scanner.lastScanTime (scanner st') = Scanner.lastScanTime (scanner st)
  /\ Scanner.scanInterval (scanner st') = Scanner.scanInterval (scanner st)
  /\ Scanner.nextScanTime (scanner st') = Scanner.nextScanTime (scanner st)
  /\ R (projects st) (projects st')
  /\ exists d,
       trace st' = trace st ++ d
       /\ logged_languages d = []
       /\ Z.of_nat (List.length (store_requests d)) <= attempts d.

(** The same across whole language scans, whose reports are [logs]. *)
Definition scan_frame (R : list Project.t -> list Project.t -> Prop)
  (logs : list jsstring) (st st' : sys) : Prop :=
  Scanner.lastScanTime (scanner st') = Scanner.lastScanTime (scanner st)
  /\ Scanner.scanInterval (scanner st') = Scanner.scanInterval (scanner st)
  /\ Scanner.nextScanTime (scanner st') = Scanner.nextScanTime (scanner st)
  /\ R (projects st) (projects st')
  /\ exists d,
       trace st' = trace st ++ d
       /\ logged_languages d = logs
       /\ Z.of_nat (List.length (store_requests d)) <= attempts d.

(** The columns the update list of [saveProject] leaves out. *)
Definition same_identity (r r' : Project.t) : Prop :=
  Project.github_id r' = Project.github_id r
  /\ Project.name r' = Project.name r
  /\ Project.full_name r' = Project.full_name r
  /\ Project.description r' = Project.description r
  /\ Project.language r' = Project.language r
  /\ Project.topics r' = Project.topics r
  /\ Project.category r' = Project.category r
  /\ Project.created_at r' = Project.created_at r.

(** From a table that satisfies the UNIQUE constraint, [rows'] still
    satisfies it and has, for every row of [rows], a row with the same
    identity. *)
Definition table_kept (rows rows' : list Project.t) : Prop :=
  unique_ids rows ->
  unique_ids rows'
  /\ (List.length rows <= List.length rows')%nat
  /\ forall r, In r rows -> exists r', In r' rows' /\ same_identity r r'.

(** What the scanner guarantees of a row it wrote. *)
Definition stored_ok (r : Project.t) : Prop :=
  in_score_range (Project.utility_score r)
  /\ str_length (Project.readme_content r) <= 10000.

Definition table_ok (rows rows' : list Project.t) : Prop :=
  Forall stored_ok rows -> Forall stored_ok rows'.


(** No relation between the tables. *)
Definition any_table (rows rows' : list Project.t) : Prop := True.

(** The search requests of a trace: language, page size, page. *)
Fixpoint search_requests (tr : list event) : list (jsstring * Z * Z) :=
  match tr with
  | [] => []
  | SearchRequest language per_page page :: tr' =>
      (language, per_page, page) :: search_requests tr'
  | _ :: tr' => search_requests tr'
  end.

(** Requests for [language] with 100 items a page whose page numbers
    start at [p] and go on with the same page or the next one. *)
Fixpoint pages_from (language : jsstring) (p : Z)
  (requests : list (jsstring * Z * Z)) : Prop :=
  match requests with
  | [] => True
  | (language', per_page, page) :: requests' =>
      language' = language /\ per_page = 100 /\ page = p
      /\ (pages_from language p requests'
          \/ pages_from language (p + 1) requests')
  end.

(** ** The project query in full, and the recommendations *)

(** The [filters] object of [getProjects]; [limit] is [None] when it is
    absent or NaN. *)
Module Query.
Record t : Type := mk {
  language : option jsstring;
  category : option jsstring;
  search : option jsstring;
  limit : option Z
}.
End Query.

(** [filters.limit || 50] *)
Definition effective_limit (q : Query.t) : Z :=
  match Query.limit q with
  | Some n => if n =? 0 then 50 else n
  | None => 50
  end.

(** [LIMIT n]: a negative [n] puts no bound on the number of rows. *)
Definition sql_limit (n : Z) (rows : list Project.t) : list Project.t :=
  if n <? 0 then rows else firstn (Z.to_nat n) rows.

(** The decision chains of [getRecommendations] on the lower-cased
    request. *)
Definition detectedLanguage (keywords : jsstring) : option jsstring :=
  if includes keywords (lit "javascript") || includes keywords (lit "js")
  then Some (lit "JavaScript")
  else if includes keywords (lit "python") then Some (lit "Python")
  else if includes keywords (lit "java")
          && negb (includes keywords (lit "javascript"))
  then Some (lit "Java")
  else if includes keywords (lit "typescript") || includes keywords (lit "ts")
  then Some (lit "TypeScript")
  else if includes keywords (lit "go") || includes keywords (lit "golang")
  then Some (lit "Go")
  else None.

Definition detectedCategory (keywords : jsstring) : option jsstring :=
  if includes keywords (lit "auth")
     || includes keywords (lit "authentification")
  then Some (lit "authentication")
  else if includes keywords (lit "api") || includes keywords (lit "rest")
  then Some (lit "api")
  else if includes keywords (lit "database") || includes keywords (lit "db")
  then Some (lit "database")
  else if includes keywords (lit "ui") || includes keywords (lit "interface")
  then Some (lit "ui")
  else None.

Section Engine.

(** [text LIKE pattern] and [ORDER BY utility_score DESC] belong to the
    store engine. *)
Variable like : jsstring -> jsstring -> bool.
Variable order_by_utility_score_desc : list Project.t -> list Project.t.

Variable toLowerCase : jsstring -> jsstring.

(** The [WHERE] clause [getProjects] builds. *)
Definition where_query (q : Query.t) (r : Project.t) : bool :=
  where_clause
    {| Filters.language := Query.language q;
       Filters.category := Query.category q |} r
  &&
  (if filter_set (Query.search q)
   then
     let searchTerm :=
       lit "%" ++ match Query.search q with Some t => t | None => [] end
       ++ lit "%" in
     like (Project.name r) searchTerm || like (Project.description r) searchTerm
   else true).

(** The rows [getProjects] selects; the parsing of their two JSON
    columns is not modelled. *)
Definition getProjectsQuery (q : Query.t) (rows : list Project.t)
  : list Project.t :=
  sql_limit (effective_limit q)
    (order_by_utility_score_desc (List.filter (where_query q) rows)).

(** The [intent] and the [recommendations] of [getRecommendations]. *)
Definition getRecommendations (userInput : jsstring) (rows : list Project.t)
  : (option jsstring * option jsstring) * list Project.t :=
  let keywords := toLowerCase userInput in
  let detected_language := detectedLanguage keywords in
  let detected_category := detectedCategory keywords in
  ((detected_language, detected_category),
   getProjectsQuery
     {| Query.language := detected_language;
        Query.category := detected_category;
        Query.search := None;
        Query.limit := Some 10 |} rows).

End Engine.

(** The chains in the words of a priority list: the first group with a
    term in the text gives the value. *)
Fixpoint first_group (text : jsstring)
  (groups : list (jsstring * list jsstring)) : option jsstring :=
  match groups with
  | [] => None
  | (v, terms) :: groups' =>
      if group_matches text terms then Some v else first_group text groups'
  end.

Definition language_groups : list (jsstring * list jsstring) :=
  [ (lit "JavaScript", [lit "javascript"; lit "js"]);
    (lit "Python", [lit "python"]);
    (lit "Java", [lit "java"]);
    (lit "TypeScript", [lit "typescript"; lit "ts"]);
    (lit "Go", [lit "go"]) ].

Definition intent_category_groups : list (jsstring * list jsstring) :=
  [ (lit "authentication", [lit "auth"]);
    (lit "api", [lit "api"; lit "rest"]);
    (lit "database", [lit "database"; lit "db"]);
    (lit "ui", [lit "ui"; lit "interface"]) ].

(** ** The scheduler

    [startInitialScan] calls [runScan] without waiting for it;
    [schedulePeriodicScan] arms an interval timer whose callback awaits
    [runScan] and then moves [nextScanTime]; [stop] clears the timer
    whose handle the scanner holds. An activation of [runScan] that came
    from the timer remembers the interval; a handle is the value
    [setInterval] returned. *)

Record activation : Type := {
  languages_left : list jsstring;
  reschedule : option Z
}.

Record runtime : Type := {
  core : sys;
  activations : list activation;
  timers : list (Z * Z)               (* handle, interval in ms *)
}.

Definition set_nextScanTime (t : Z) (st : sys) : sys :=
  {| scanner :=
       {| Scanner.isScanning := Scanner.isScanning (scanner st);
          Scanner.lastScanTime := Scanner.lastScanTime (scanner st);
          Scanner.totalScanned := Scanner.totalScanned (scanner st);
          Scanner.scanInterval := Scanner.scanInterval (scanner st);
          Scanner.nextScanTime := Some t |};
     projects := projects st; trace := trace st |}.

Definition set_scanInterval (handle : Z) (st : sys) : sys :=
  {| scanner :=
       {| Scanner.isScanning := Scanner.isScanning (scanner st);
          Scanner.lastScanTime := Scanner.lastScanTime (scanner st);
          Scanner.totalScanned := Scanner.totalScanned (scanner st);
          Scanner.scanInterval := Some handle;
          Scanner.nextScanTime := Scanner.nextScanTime (scanner st) |};
     projects := projects st; trace := trace st |}.

Inductive occurrence : Type :=
| StartInitialScan
| SchedulePeriodicScan (hours : Z) (now : Z) (handle : Z)
| TimerFires (handle : Z) (now : Z)
| Continues (i : nat) (ep : episode) (finished : Z) (now : Z)
| Stop.

Definition timer_interval (handle : Z) (timers : list (Z * Z)) : option Z :=
  option_map snd (List.find (fun t => fst t =? handle) timers).

Section Scheduler.

Variable toLowerCase : jsstring -> jsstring.

Definition startInitialScan (rt : runtime) : runtime :=
  match runScan_enter (core rt) with
  | None => rt
  | Some st =>
      {| core := st;
         activations :=
           activations rt
           ++ [ {| languages_left := SCAN_LANGUAGES; reschedule := None |} ];
         timers := timers rt |}
  end.

Definition schedulePeriodicScan (hours now handle : Z) (rt : runtime)
  : runtime :=
  let intervalMs := hours * 60 * 60 * 1000 in
  {| core := set_scanInterval handle
               (set_nextScanTime (now + intervalMs) (core rt));
     activations := activations rt;
     timers := timers rt ++ [(handle, intervalMs)] |}.

(** The callback of the interval timer, up to its first suspension. *)
Definition timerCallback (intervalMs now : Z) (rt : runtime) : runtime :=
  match runScan_enter (core rt) with
  | None =>
      {| core := set_nextScanTime (now + intervalMs) (core rt);
         activations := activations rt; timers := timers rt |}
  | Some st =>
      {| core := st;
         activations :=
           activations rt
           ++ [ {| languages_left := SCAN_LANGUAGES;
                   reschedule := Some intervalMs |} ];
         timers := timers rt |}
  end.

Definition stop (rt : runtime) : runtime :=
  match Scanner.scanInterval (scanner (core rt)) with
  | Some handle =>
      {| core := core rt; activations := activations rt;
         timers :=
           List.filter (fun t => negb (fst t =? handle)) (timers rt) |}
  | None => rt
  end.

Definition occur (rt : runtime) (o : occurrence) : runtime :=
  match o with
  | StartInitialScan => startInitialScan rt
  | SchedulePeriodicScan hours now handle =>
      schedulePeriodicScan hours now handle rt
  | TimerFires handle now =>
      match timer_interval handle (timers rt) with
      | Some intervalMs => timerCallback intervalMs now rt
      | None => rt
      end
  | Continues i ep finished now =>
      match activations rt !! i with
      | None => rt
      | Some a =>
          match resume toLowerCase (languages_left a) ep finished (core rt)
          with
          | (st, Some languages') =>
              {| core := st;
                 activations :=
                   <[i := {| languages_left := languages';
                             reschedule := reschedule a |}]> (activations rt);
                 timers := timers rt |}
          | (st, None) =>
              {| core :=
                   match reschedule a with
                   | Some intervalMs => set_nextScanTime (now + intervalMs) st
                   | None => st
                   end;
                 activations := delete i (activations rt);
                 timers := timers rt |}
          end
      end
  | Stop => stop rt
  end.

Definition occurs (os : list occurrence) (rt : runtime) : runtime :=
  fold_left occur os rt.

End Scheduler.

(** The process after the scanner was constructed. *)
Definition started (rows : list Project.t) : runtime :=
  {| core := {| scanner := Scanner.new; projects := rows; trace := [] |};
     activations := []; timers := [] |}.

(** ** Users *)

(** A row of table [users]. *)
Module User.
Record t : Type := mk {
  id : Z;                        (* INTEGER PRIMARY KEY AUTOINCREMENT *)
  email : jsstring;              (* TEXT UNIQUE NOT NULL *)
  username : jsstring;           (* TEXT UNIQUE NOT NULL *)
  password : jsstring;           (* TEXT NOT NULL, the bcrypt hash *)
  created_at : Z
}.
End User.

(** The object a token carries, which is also the [user] object that
    [signup] and [login] return. *)
Module Payload.
Record t : Type := mk {
  userId : Z;
  email : jsstring;
  username : jsstring
}.
End Payload.

(** The columns [getProfile] selects. *)
Module Profile.
Record t : Type := mk {
  id : Z;
  email : jsstring;
  username : jsstring;
  created_at : Z
}.
End Profile.

(** The four French messages of the backend. *)
Inductive auth_message : Type :=
| EmailOrUsernameUsed      (* Email ou nom d'utilisateur deja utilise *)
| WrongEmailOrPassword     (* Email ou mot de passe incorrect *)
| UserNotFound             (* Utilisateur non trouve *)
| InvalidToken.            (* Token invalide *)

Inductive auth_result : Type :=
| AuthSuccess (user : Payload.t) (token : jsstring)
| AuthFailure (message : auth_message).

Inductive profile_result : Type :=
| ProfileSuccess (user : Profile.t)
| ProfileFailure (message : auth_message).

(** How an async call of the backend settles. *)
Inductive settled (A : Type) : Type :=
| Fulfilled (a : A)
| Failed.

Arguments Fulfilled {A} a.
Arguments Failed {A}.

(** What the users store answers to the [INSERT]: the new row id and the
    store time, or an error other than a UNIQUE violation. *)
Inductive insert_reply : Type :=
| Inserted (lastInsertRowid : Z) (now : Z)
| InsertError.

Definition email_used (email : jsstring) (users : list User.t) : bool :=
  existsb (fun u => str_eqb (User.email u) email) users.

Definition username_used (username : jsstring) (users : list User.t)
  : bool :=
  existsb (fun u => str_eqb (User.username u) username) users.

Section Auth.

(** [bcrypt.hash(password, 10)] with the salt it draws,
    [bcrypt.compare], and [jwt.sign] / [jwt.verify] with the secret of
    the service and the clock; [jwt_verify] is [None] when it throws. *)
Variable bcrypt_hash : jsstring -> jsstring -> jsstring.
Variable bcrypt_compare : jsstring -> jsstring -> bool.
Variable jwt_sign : Payload.t -> Z -> jsstring.
Variable jwt_verify : jsstring -> Z -> option Payload.t.

Definition signup (salt : jsstring) (reply : insert_reply) (jwt_now : Z)
  (email username password : jsstring) (users : list User.t)
  : settled auth_result * list User.t :=
  let hashedPassword := bcrypt_hash password salt in
  match reply with
  | InsertError => (Failed, users)
  | Inserted userId now =>
      if email_used email users || username_used username users
      then (Fulfilled (AuthFailure EmailOrUsernameUsed), users)
      else
        let users :=
          users ++ [ {| User.id := userId; User.email := email;
                        User.username := username;
                        User.password := hashedPassword;
                        User.created_at := now |} ] in
        let payload :=
          {| Payload.userId := userId; Payload.email := email;
             Payload.username := username |} in
        (Fulfilled (AuthSuccess payload (jwt_sign payload jwt_now)), users)
  end.

Definition login (store_up : bool) (jwt_now : Z) (email password : jsstring)
  (users : list User.t) : settled auth_result :=
  if store_up then
    match List.filter (fun u => str_eqb (User.email u) email) users with
    | [] => Fulfilled (AuthFailure WrongEmailOrPassword)
    | user :: _ =>
        if bcrypt_compare password (User.password user) then
          let payload :=
            {| Payload.userId := User.id user; Payload.email := User.email user;
               Payload.username := User.username user |} in
          Fulfilled (AuthSuccess payload (jwt_sign payload jwt_now))
        else Fulfilled (AuthFailure WrongEmailOrPassword)
    end
  else Failed.

(** Its [catch] turns every failure, of the token check and of the
    store alike, into the invalid-token answer. *)
Definition getProfile (store_up : bool) (jwt_now : Z) (token : jsstring)
  (users : list User.t) : profile_result :=
  match jwt_verify token jwt_now with
  | None => ProfileFailure InvalidToken
  | Some decoded =>
      if store_up then
        match
          List.filter (fun u => User.id u =? Payload.userId decoded) users
        with
        | [] => ProfileFailure UserNotFound
        | user :: _ =>
            ProfileSuccess
              {| Profile.id := User.id user; Profile.email := User.email user;
                 Profile.username := User.username user;
                 Profile.created_at := User.created_at user |}
        end
      else ProfileFailure InvalidToken
  end.

End Auth.

(** The constraints of table [users]. *)
Definition users_ok (users : list User.t) : Prop :=
  NoDup (List.map User.id users)
  /\ NoDup (List.map User.email users)
  /\ NoDup (List.map User.username users).

(** Stand-ins for the engine and the libraries, to run the model on
    concrete inputs. *)
Module Toy.

Fixpoint insert_by_score (r : Project.t) (rows : list Project.t)
  : list Project.t :=
  match rows with
  | [] => [r]
  | x :: rows' =>
      if PrimFloat.leb (Project.utility_score x) (Project.utility_score r)
      then r :: rows
      else x :: insert_by_score r rows'
  end.

Definition order_by_score (rows : list Project.t) : list Project.t :=
  fold_right insert_by_score [] rows.

Definition like (text pattern : jsstring) : bool :=
  includes (asciiToLowerCase text)
    (asciiToLowerCase (removelast (List.tl pattern))).

Definition hash (password salt : jsstring) : jsstring := salt ++ password.

Definition compare (password hashed : jsstring) : bool :=
  str_eqb (skipn 2 hashed) password.

Definition sign (payload : Payload.t) (now : Z) : jsstring :=
  Payload.email payload.

Definition verify (users : list User.t) (token : jsstring) (now : Z)
  : option Payload.t :=
  match List.filter (fun u => str_eqb (User.email u) token) users with
  | u :: _ =>
      Some {| Payload.userId := User.id u; Payload.email := User.email u;
              Payload.username := User.username u |}
  | [] => None
  end.

Definition ada : list User.t :=
  [ {| User.id := 1; User.email := lit "ada@x.org";
       User.username := lit "ada"; User.password := lit "s1pw1";
       User.created_at := 3 |} ].

End Toy.

(** * Properties *)

(** ** Scoring engine *)

Section ScoringFacts.

Variable toLowerCase : jsstring -> jsstring.

Lemma detectFeatures_length (text : jsstring) :
  (List.length (detectFeatures text) <= 4)%nat.
Proof.
  unfold detectFeatures, pushIf.
  destruct (includes text (lit "typescript")),
    (includes text (lit "async")),
    (includes text (lit "security")),
    (includes text (lit "performance")); simpl; lia.
Qed.

(** The score of any analysis with at most four feature tags lies in
    the range, whatever the star count. *)
Lemma calculateUtilityScore_range (repo : Repo.t) (readme : jsstring)
  (analysis : Analysis.t) :
  (List.length (Analysis.features analysis) <= 4)%nat ->
  in_score_range (calculateUtilityScore repo readme analysis).
Proof.
  destruct analysis as [c fs h q cx p]; simpl; intros Hlen.
  unfold calculateUtilityScore, in_score_range; simpl.
  destruct fs as [|? [|? [|? [|? [|? ?]]]]]; simpl in Hlen; try lia;
    destruct (10000 <? Repo.stargazers_count repo);
    destruct (1000 <? Repo.stargazers_count repo);
    destruct (100 <? Repo.stargazers_count repo);
    destruct q; destruct p; vm_compute; split; reflexivity.
Qed.

(** C1: for every repository metadata and document text, the utility
    score the engine computes from the analysis of that document (base
    5.0, the bonuses, the clamp at 10.0) is at least 5.0 and at most
    10.0. *)
Theorem utility_score_bounds (repo : Repo.t) (readme : jsstring) :
  in_score_range
    (calculateUtilityScore repo readme (analyzeRepo toLowerCase repo readme)).
Proof.
  apply calculateUtilityScore_range; simpl.
  apply detectFeatures_length.
Qed.

Lemma detectCategory_first_match (text : jsstring) :
  detectCategory text = first_match text term_groups.
Proof.
  unfold detectCategory, term_groups, first_match, group_matches, existsb.
  rewrite !orb_false_r. reflexivity.
Qed.

(** C6: the category is the one of the first term group, in the order
    authentication, api, database, ui, framework, cli, testing, that has
    a term in the lower-cased document, and general when none has; a
    document with an authentication term and an api term is classified
    authentication, not api. *)
Theorem category_priority (repo : Repo.t) (readme : jsstring) :
  Analysis.category (analyzeRepo toLowerCase repo readme)
  = first_match (toLowerCase readme) term_groups
  /\ (group_matches (toLowerCase readme) [lit "auth"; lit "authentication"]
      = true ->
      group_matches (toLowerCase readme) [lit "api"; lit "rest"] = true ->
      Analysis.category (analyzeRepo toLowerCase repo readme) = authentication
      /\ Analysis.category (analyzeRepo toLowerCase repo readme) <> api).
Proof.
  simpl Analysis.category. split.
  - apply detectCategory_first_match.
  - intros Hauth _. rewrite detectCategory_first_match.
    unfold term_groups, first_match. rewrite Hauth. split; congruence.
Qed.

(** C7: with L the length of the document and p the star count, the
    documentation quality is excellent iff L > 3000 with an install
    term and a usage-or-example term, otherwise good iff L > 1500 with
    one of them, otherwise basic iff L > 500, otherwise poor; the
    complexity is high iff L > 5000, otherwise medium iff L > 2000,
    otherwise low; has_documentation iff L > 500; production_ready iff
    the document mentions production or p > 1000. *)
Theorem analysis_tiers (repo : Repo.t) (readme : jsstring) :
  let L := str_length readme in
  let hasInstall := includes (toLowerCase readme) (lit "install") in
  let hasUsage :=
    includes (toLowerCase readme) (lit "usage")
    || includes (toLowerCase readme) (lit "example") in
  let isExcellent := L > 3000 /\ hasInstall = true /\ hasUsage = true in
  let isGood := L > 1500 /\ (hasInstall = true \/ hasUsage = true) in
  let a := analyzeRepo toLowerCase repo readme in
  (Analysis.documentation_quality a = excellent <-> isExcellent)
  /\ (Analysis.documentation_quality a = good <-> ~ isExcellent /\ isGood)
  /\ (Analysis.documentation_quality a = basic
      <-> ~ isExcellent /\ ~ isGood /\ L > 500)
  /\ (Analysis.documentation_quality a = poor
      <-> ~ isExcellent /\ ~ isGood /\ ~ L > 500)
  /\ (Analysis.complexity a = high <-> L > 5000)
  /\ (Analysis.complexity a = medium <-> ~ L > 5000 /\ L > 2000)
  /\ (Analysis.complexity a = low <-> ~ L > 5000 /\ ~ L > 2000)
  /\ (Analysis.has_documentation a = true <-> L > 500)
  /\ (Analysis.production_ready a = true
      <-> includes (toLowerCase readme) (lit "production") = true
          \/ Repo.stargazers_count repo > 1000).
Proof.
  intros L hasInstall hasUsage isExcellent isGood a.
  subst a isExcellent isGood. simpl.
  unfold assessDocQuality, assessComplexity.
  fold L. fold hasInstall. fold hasUsage.
  destruct (Z.ltb_spec 3000 L), (Z.ltb_spec 1500 L), (Z.ltb_spec 500 L),
    (Z.ltb_spec 5000 L), (Z.ltb_spec 2000 L),
    (Z.ltb_spec 1000 (Repo.stargazers_count repo));
    destruct hasInstall, hasUsage,
      (includes (toLowerCase readme) (lit "production"));
    simpl; repeat split; intros;
    try congruence; try lia; intuition (try congruence; try lia).
Qed.

End ScoringFacts.

(** ** Project store *)

Section StoreFacts.

Implicit Types (rows : list Project.t) (r e : Project.t) (gid now : Z).

Lemma rows_of_absent gid rows :
  ~ In gid (List.map Project.github_id rows) -> rows_of gid rows = [].
Proof.
  induction rows as [|r rows IH]; simpl; intros Hnot; [reflexivity|].
  destruct (Z.eqb_spec (Project.github_id r) gid) as [Heq|Hne].
  - exfalso. apply Hnot. left. exact Heq.
  - apply IH. intros Hin. apply Hnot. right. exact Hin.
Qed.

Lemma rows_of_present gid rows :
  In gid (List.map Project.github_id rows) -> rows_of gid rows <> [].
Proof.
  induction rows as [|r rows IH]; simpl; intros Hin; [contradiction|].
  destruct (Z.eqb_spec (Project.github_id r) gid) as [Heq|Hne]; [discriminate|].
  destruct Hin as [Heq|Hin]; [contradiction|]. apply IH, Hin.
Qed.

(** Under the UNIQUE constraint an identifier selects at most one row. *)
Lemma unique_rows_of gid rows :
  unique_ids rows -> rows_of gid rows = [] \/ exists r, rows_of gid rows = [r].
Proof.
  unfold unique_ids.
  induction rows as [|r rows IH]; simpl; intros Hnd; [left; reflexivity|].
  inversion Hnd as [|? ? Hnot Hnd']; subst.
  destruct (Z.eqb_spec (Project.github_id r) gid) as [Heq|Hne].
  - right. exists r. subst gid.
    rewrite rows_of_absent by (rewrite <- list_elem_of_In; exact Hnot).
    reflexivity.
  - apply IH, Hnd'.
Qed.

Lemma existsb_conflicts e rows :
  existsb (conflicts e) rows = true
  <-> In (Project.github_id e) (List.map Project.github_id rows).
Proof.
  induction rows as [|r rows IH]; simpl; [split; [discriminate|tauto]|].
  unfold conflicts at 1.
  rewrite orb_true_iff, IH, Z.eqb_eq. tauto.
Qed.

Lemma do_update_github_id now e r :
  Project.github_id (do_update now e r) = Project.github_id r.
Proof. reflexivity. Qed.

(** The identifiers of the table after an upsert. *)
Lemma upsert_ids now e rows :
  List.map Project.github_id (upsert now e rows)
  = if existsb (conflicts e) rows
    then List.map Project.github_id rows
    else List.map Project.github_id rows ++ [Project.github_id e].
Proof.
  unfold upsert. destruct (existsb (conflicts e) rows).
  - rewrite List.map_map. apply List.map_ext.
    intros r. destruct (conflicts e r); reflexivity.
  - rewrite List.map_app. reflexivity.
Qed.

(** The upsert maintains the UNIQUE constraint. *)
Lemma upsert_unique now e rows :
  unique_ids rows -> unique_ids (upsert now e rows).
Proof.
  unfold unique_ids. intros Hnd. rewrite upsert_ids.
  destruct (existsb (conflicts e) rows) eqn:Hex; [exact Hnd|].
  apply NoDup_app. repeat split.
  - exact Hnd.
  - intros x Hx Hin. apply list_elem_of_In in Hx, Hin.
    destruct Hin as [<-|[]].
    apply existsb_conflicts in Hx. congruence.
  - apply NoDup_cons. split; [intros Hin; inversion Hin|constructor].
Qed.

Lemma upsert_length_conflict now e rows :
  existsb (conflicts e) rows = true ->
  List.length (upsert now e rows) = List.length rows.
Proof.
  unfold upsert. intros ->. apply List.length_map.
Qed.

(** Rows with another identifier are not touched. *)
Lemma upsert_rows_of_other now e rows gid :
  gid <> Project.github_id e ->
  rows_of gid (upsert now e rows) = rows_of gid rows.
Proof.
  intros Hne. unfold upsert, rows_of.
  destruct (existsb (conflicts e) rows).
  - unfold conflicts.
    induction rows as [|r rows IH]; simpl; [reflexivity|].
    destruct (Z.eqb_spec (Project.github_id r) (Project.github_id e))
      as [Heq|Hd];
      simpl.
    + destruct (Z.eqb_spec (Project.github_id r) gid); [congruence|]. exact IH.
    + destruct (Project.github_id r =? gid); [f_equal|]; exact IH.
  - rewrite List.filter_app. simpl.
    destruct (Z.eqb_spec (Project.github_id e) gid); [congruence|].
    apply List.app_nil_r.
Qed.

Lemma update_rows_of_none now e rows :
  rows_of (Project.github_id e) rows = [] ->
  rows_of (Project.github_id e)
    (List.map
       (fun r => if conflicts e r then do_update now e r else r) rows)
  = [].
Proof.
  unfold rows_of, conflicts.
  induction rows as [|r rows IH]; simpl; [reflexivity|].
  destruct (Z.eqb_spec (Project.github_id r) (Project.github_id e)) as [Heq|Hd];
    [discriminate|].
  simpl. destruct (Z.eqb_spec (Project.github_id r) (Project.github_id e));
    [contradiction|]. exact IH.
Qed.

(** The conflict path rewrites the row that carries the identifier. *)
Lemma upsert_rows_of_conflict now e rows r :
  rows_of (Project.github_id e) rows = [r] ->
  rows_of (Project.github_id e) (upsert now e rows) = [do_update now e r].
Proof.
  intros Hr. unfold upsert.
  assert (Hex : existsb (conflicts e) rows = true).
  { apply existsb_conflicts.
    destruct (in_dec Z.eq_dec (Project.github_id e)
                (List.map Project.github_id rows)) as [Hin|Hnot];
      [exact Hin|].
    rewrite rows_of_absent in Hr by exact Hnot. discriminate. }
  rewrite Hex. clear Hex. revert Hr.
  induction rows as [|r' rows IH]; [discriminate|].
  change (rows_of (Project.github_id e) (r' :: rows))
    with (if Project.github_id r' =? Project.github_id e
          then r' :: rows_of (Project.github_id e) rows
          else rows_of (Project.github_id e) rows).
  cbn [List.map]. unfold conflicts at 1.
  destruct (Z.eqb_spec (Project.github_id r') (Project.github_id e))
    as [Heq|Hd];
    intros Hr.
  - injection Hr as -> Htl.
    change (rows_of (Project.github_id e) (do_update now e r :: ?l))
      with (if Project.github_id r =? Project.github_id e
            then do_update now e r :: rows_of (Project.github_id e) l
            else rows_of (Project.github_id e) l).
    rewrite Heq, Z.eqb_refl. f_equal.
    apply update_rows_of_none, Htl.
  - change (rows_of (Project.github_id e) (r' :: ?l))
      with (if Project.github_id r' =? Project.github_id e
            then r' :: rows_of (Project.github_id e) l
            else rows_of (Project.github_id e) l).
    destruct (Z.eqb_spec (Project.github_id r') (Project.github_id e));
      [contradiction|]. apply IH, Hr.
Qed.

(** The insert path adds the proposed row. *)
Lemma upsert_rows_of_insert now e rows :
  rows_of (Project.github_id e) rows = [] ->
  rows_of (Project.github_id e) (upsert now e rows) = [e].
Proof.
  intros Hr. unfold upsert.
  destruct (existsb (conflicts e) rows) eqn:Hex.
  - apply existsb_conflicts, rows_of_present in Hex. contradiction.
  - unfold rows_of in *. rewrite List.filter_app, Hr. simpl.
    rewrite Z.eqb_refl. reflexivity.
Qed.

End StoreFacts.

Section Upsert.

Implicit Types (rows : list Project.t) (p : ProjectData.t).

Lemma saveProject_executes now p rows :
  saveProject (Executes now) p rows
  = (SaveSuccess, upsert now (excluded_row now p) rows).
Proof. reflexivity. Qed.

(** After an executed save the identifier selects exactly one row. *)
Lemma saveProject_one_row now p rows :
  unique_ids rows ->
  exists r,
    rows_of (ProjectData.github_id p)
      (snd (saveProject (Executes now) p rows)) = [r]
    /\ (rows_of (ProjectData.github_id p) rows = [] ->
        r = excluded_row now p)
    /\ (forall r0, rows_of (ProjectData.github_id p) rows = [r0] ->
        r = do_update now (excluded_row now p) r0).
Proof.
  intros Hu. rewrite saveProject_executes. simpl snd.
  change (ProjectData.github_id p)
    with (Project.github_id (excluded_row now p)).
  destruct (unique_rows_of (Project.github_id (excluded_row now p)) rows Hu)
    as [Hnone|[r0 Hone]].
  - exists (excluded_row now p). split; [|split].
    + apply upsert_rows_of_insert, Hnone.
    + reflexivity.
    + intros r0 Hr0. congruence.
  - exists (do_update now (excluded_row now p) r0). split; [|split].
    + apply upsert_rows_of_conflict, Hone.
    + intros Hnone. congruence.
    + intros r0' Hr0'. congruence.
Qed.

(** C2: two upserts with the same github_id leave exactly one row with
    that identifier (the UNIQUE constraint still holds and the second
    upsert adds no row); that row has the github_id and the created_at
    of the row the first upsert left, and its other columns outside the
    update list (name, full_name, description, language, topics,
    category) are unchanged too; stars, readme_content, ai_analysis,
    utility_score and scanned_at are those of the second upsert; rows
    with other identifiers are as before. *)
Theorem upsert_twice_one_record (rows : list Project.t)
  (p1 p2 : ProjectData.t) (now1 now2 : Z) :
  unique_ids rows ->
  ProjectData.github_id p1 = ProjectData.github_id p2 ->
  let gid := ProjectData.github_id p1 in
  let rows1 := snd (saveProject (Executes now1) p1 rows) in
  let rows2 := snd (saveProject (Executes now2) p2 rows1) in
  exists r1 r2,
    rows_of gid rows1 = [r1]
    /\ rows_of gid rows2 = [r2]
    /\ unique_ids rows2
    /\ List.length rows2 = List.length rows1
    /\ (Project.github_id r2 = gid /\ Project.github_id r1 = gid)
    /\ Project.created_at r2 = Project.created_at r1
    /\ (rows_of gid rows = [] -> Project.created_at r2 = now1)
    /\ (Project.name r2 = Project.name r1
        /\ Project.full_name r2 = Project.full_name r1
        /\ Project.description r2 = Project.description r1
        /\ Project.language r2 = Project.language r1
        /\ Project.topics r2 = Project.topics r1
        /\ Project.category r2 = Project.category r1)
    /\ (Project.stars r2 = ProjectData.stars p2
        /\ Project.readme_content r2 = ProjectData.readme_content p2
        /\ Project.ai_analysis r2
           = JSON.stringify_analysis (ProjectData.ai_analysis p2)
        /\ Project.utility_score r2 = or_zero (ProjectData.utility_score p2)
        /\ Project.scanned_at r2 = now2)
    /\ (forall gid', gid' <> gid -> rows_of gid' rows2 = rows_of gid' rows).
Proof.
  intros Hu Hid gid rows1 rows2.
  assert (Hu1 : unique_ids rows1) by (apply upsert_unique, Hu).
  destruct (saveProject_one_row now1 p1 rows Hu) as (r1 & Hr1 & Hins & Hupd).
  destruct (saveProject_one_row now2 p2 rows1 Hu1) as (r2 & Hr2 & _ & Hupd2).
  fold rows1 in Hr1. fold rows2 in Hr2. rewrite <- Hid in Hr2.
  fold gid in Hr1, Hr2, Hins, Hupd.
  assert (Hr2' : r2 = do_update now2 (excluded_row now2 p2) r1)
    by (apply Hupd2; rewrite <- Hid; exact Hr1).
  assert (Hg1 : Project.github_id r1 = gid).
  { assert (Hin : In r1 (rows_of gid rows1)) by (rewrite Hr1; left; reflexivity).
    apply List.filter_In in Hin. destruct Hin as [_ Hin].
    apply Z.eqb_eq, Hin. }
  exists r1, r2. subst r2. simpl.
  repeat split; try reflexivity; try assumption.
  - apply upsert_unique, Hu1.
  - apply upsert_length_conflict, existsb_conflicts. simpl.
    rewrite <- Hid.
    destruct (in_dec Z.eq_dec gid (List.map Project.github_id rows1))
      as [Hin|Hnot]; [exact Hin|].
    rewrite (rows_of_absent gid rows1 Hnot) in Hr1. discriminate.
  - intros Hnone. rewrite (Hins Hnone). reflexivity.
  - intros gid' Hne. unfold rows2, rows1. subst gid.
    rewrite !saveProject_executes. simpl snd.
    rewrite !upsert_rows_of_other; [reflexivity| |]; simpl; congruence.
Qed.





End Upsert.

(** ** Scanner *)

Section TraceFacts.

Lemma attempts_app (a b : list event) :
  attempts (a ++ b) = attempts a + attempts b.
Proof.
  induction a as [|e a IH]; simpl; [reflexivity|].
  destruct e; rewrite IH; lia.
Qed.

Lemma reported_app (a b : list event) :
  reported (a ++ b) = reported a + reported b.
Proof.
  induction a as [|e a IH]; simpl; [reflexivity|].
  destruct e; rewrite IH; lia.
Qed.

Lemma store_requests_app (a b : list event) :
  store_requests (a ++ b) = store_requests a ++ store_requests b.
Proof.
  induction a as [|e a IH]; simpl; [reflexivity|].
  destruct e; rewrite IH; reflexivity.
Qed.

Lemma console_errors_app (a b : list event) :
  console_errors (a ++ b) = console_errors a ++ console_errors b.
Proof.
  induction a as [|e a IH]; simpl; [reflexivity|].
  destruct e; rewrite IH; reflexivity.
Qed.

Lemma advances_refl (st : sys) : advances 0 0 st st.
Proof. unfold advances. repeat split; lia. Qed.

Lemma advances_trans (n1 k1 n2 k2 : Z) (st1 st2 st3 : sys) :
  advances n1 k1 st1 st2 -> advances n2 k2 st2 st3 ->
  advances (n1 + n2) (k1 + k2) st1 st3.
Proof.
  unfold advances. intros (? & ? & ? & ? & ?) (? & ? & ? & ? & ?).
  repeat split; try lia; congruence.
Qed.

Lemma advances_eq (n n' k k' : Z) (st st' : sys) :
  advances n k st st' -> n = n' -> k = k' -> advances n' k' st st'.
Proof. intros H <- <-. exact H. Qed.

Lemma advances_emit (e : event) (st : sys) :
  silent e -> advances 0 0 st (emit e st).
Proof.
  intros [Ha Hr]. unfold advances, emit; simpl.
  rewrite attempts_app, reported_app, Ha, Hr. repeat split; lia.
Qed.

End TraceFacts.

Section ScanFacts.

Variable toLowerCase : jsstring -> jsstring.

Lemma processRepo_skip (w : item_world) (repo : Repo.t) (st : sys) :
  fetchReadme (readme w) = None ->
  processRepo toLowerCase w repo st
  = emit (ReadmeRequest (Repo.full_name repo)) st.
Proof. unfold processRepo. intros ->. reflexivity. Qed.


Lemma processRepo_scanner (w : item_world) (repo : Repo.t) (st : sys) :
  scanner (processRepo toLowerCase w repo st) = scanner st.
Proof.
  unfold processRepo.
  destruct (fetchReadme (readme w)) as [content|]; [|reflexivity].
  destruct (truthy content); simpl; [|reflexivity].
  destruct (store w); reflexivity.
Qed.

(** What a call of [processRepo] adds to the trace. *)
Lemma processRepo_trace (w : item_world) (repo : Repo.t) (st : sys) :
  exists rest,
    trace (processRepo toLowerCase w repo st)
    = trace st ++ ReadmeRequest (Repo.full_name repo) :: rest
    /\ attempts rest = 0 /\ reported rest = 0.
Proof.
  unfold processRepo.
  destruct (fetchReadme (readme w)) as [content|];
    [|exists []; simpl; auto].
  destruct (truthy content); simpl; [|exists []; simpl; auto].
  destruct (store w); simpl; rewrite <- ?app_assoc; simpl;
    eexists; (split; [reflexivity|simpl; auto]).
Qed.

(** The body of the item loop: one attempt, counted once. *)
Lemma item_advances (w : item_world) (repo : Repo.t) (st : sys) :
  advances 1 0 st
    (emit (Sleep (Some 500))
       (incr_totalScanned (processRepo toLowerCase w repo st))).
Proof.
  unfold advances. simpl. rewrite processRepo_scanner.
  destruct (processRepo_trace w repo st) as (rest & -> & Ha & Hr).
  rewrite !attempts_app, !reported_app. simpl.
  rewrite Ha, Hr. repeat split; lia.
Qed.

Lemma forItems_advances (tk : tick) (maxRepos : Z) (items : list Repo.t) :
  forall (sc : Z) (st : sys),
    advances (fst (forItems toLowerCase tk maxRepos items sc st) - sc) 0 st
      (snd (forItems toLowerCase tk maxRepos items sc st)).
Proof.
  induction items as [|repo items IH]; intros sc st; simpl.
  - rewrite Z.sub_diag. apply advances_refl.
  - destruct (maxRepos <=? sc); simpl.
    + rewrite Z.sub_diag. apply advances_refl.
    + eapply advances_eq;
        [eapply advances_trans; [apply item_advances|apply IH]| |]; lia.
Qed.

Ltac emits_only :=
  unfold advances; simpl;
  rewrite ?attempts_app, ?reported_app; simpl; repeat split; lia.

Lemma iteration_advances (language : jsstring) (maxRepos : Z) (tk : tick)
  (l : locals) (st : sys) :
  let '(_, l', st') := iteration toLowerCase language maxRepos tk l st in
  advances (scannedCount l' - scannedCount l) 0 st st'.
Proof.
  unfold iteration.
  destruct (reply tk) as [|response]; [emits_only|].
  destruct (Response.ok response); simpl.
  - destruct (Response.items response) as [[[|repo items]|]|];
      try emits_only.
    set (st0 := emit (SearchRequest language perPage (page l)) st).
    assert (H0 : advances 0 0 st st0) by emits_only.
    pose proof (forItems_advances tk maxRepos (repo :: items)
                  (scannedCount l) st0) as H.
    destruct (forItems toLowerCase tk maxRepos (repo :: items)
                (scannedCount l) st0) as [sc st'].
    simpl in *.
    eapply advances_eq; [eapply advances_trans; [exact H0|exact H]| |]; lia.
  - destruct (Response.status response =? 403); emits_only.
Qed.

Lemma whileLoop_advances (language : jsstring) (maxRepos : Z)
  (ticks : list tick) :
  forall (l : locals) (st : sys),
    advances
      (scannedCount (fst (whileLoop toLowerCase language maxRepos ticks l st))
       - scannedCount l) 0 st
      (snd (whileLoop toLowerCase language maxRepos ticks l st)).
Proof.
  induction ticks as [|tk ticks IH]; intros l st; simpl;
    destruct (scannedCount l <? maxRepos); simpl;
    try (rewrite Z.sub_diag; apply advances_refl).
  - emits_only.
  - pose proof (iteration_advances language maxRepos tk l st) as H.
    destruct (iteration toLowerCase language maxRepos tk l st)
      as [[sig l'] st'].
    destruct sig; simpl; [|exact H].
    eapply advances_eq; [eapply advances_trans; [exact H|apply IH]| |]; lia.
Qed.

(** A language scan resolves to [undefined] or, when the unexpected
    exception escapes, throws; when it returns, the count it logs is
    the number of its enrichment attempts. In both cases the lifetime
    counter grew by that number. *)
Lemma scanLanguage_advances (language : jsstring) (maxRepos : Z)
  (ep : episode) (st : sys) :
  exists n,
    advances n (if escapes ep then 0 else n) st
      (snd (scanLanguage toLowerCase language maxRepos ep st))
    /\ fst (scanLanguage toLowerCase language maxRepos ep st)
       = (if escapes ep then Thrown else Returned Undefined)
    /\ (escapes ep = false ->
        exists tr,
          trace (snd (scanLanguage toLowerCase language maxRepos ep st))
          = tr ++ [ScannedLog language n]
          /\ attempts tr = attempts (trace st) + n).
Proof.
  unfold scanLanguage.
  pose proof (whileLoop_advances language maxRepos (ticks ep)
                {| scannedCount := 0; page := 1 |} st) as H.
  destruct (whileLoop toLowerCase language maxRepos (ticks ep)
              {| scannedCount := 0; page := 1 |} st) as [l st'].
  simpl in H. rewrite Z.sub_0_r in H.
  exists (scannedCount l).
  destruct (escapes ep); simpl.
  - split; [exact H|]. split; [reflexivity|discriminate].
  - split; [|split; [reflexivity|]].
    + destruct H as (H0 & H1 & H2 & H3 & H4).
      unfold advances; simpl. rewrite attempts_app, reported_app. simpl.
      rewrite H1, H2, H3, H4. repeat split; lia.
    + intros _. exists (trace st'). split; [reflexivity|apply H].
Qed.

Lemma forLanguages_advances (languages : list jsstring) :
  forall (eps : list episode) (st : sys),
  exists n k,
    advances n k st (snd (forLanguages toLowerCase languages eps st))
    /\ (fst (forLanguages toLowerCase languages eps st) = Returned Undefined
        \/ fst (forLanguages toLowerCase languages eps st) = Thrown)
    /\ (Forall (fun ep => escapes ep = false) eps ->
        fst (forLanguages toLowerCase languages eps st) = Returned Undefined
        /\ k = n).
Proof.
  induction languages as [|language languages IH]; intros eps st; simpl.
  - exists 0, 0. split; [apply advances_refl|]. auto.
  - destruct (scanLanguage_advances language REPOS_PER_LANGUAGE
                (hd offline_episode eps) st) as (n & Hadv & Hfst & _).
    destruct (scanLanguage toLowerCase language REPOS_PER_LANGUAGE
                (hd offline_episode eps) st) as [c st1].
    simpl in Hadv, Hfst.
    assert (Hhd : Forall (fun ep => escapes ep = false) eps ->
                  escapes (hd offline_episode eps) = false
                  /\ Forall (fun ep => escapes ep = false) (tl eps)).
    { intros Hall. destruct eps as [|ep eps]; simpl; [auto|].
      inversion Hall; subst. auto. }
    destruct (escapes (hd offline_episode eps)); subst c; simpl.
    + exists n, 0. split; [exact Hadv|]. split; [auto|].
      intros Hall. destruct (Hhd Hall) as [Hx _]. discriminate.
    + destruct (IH (tl eps) (emit (Sleep (Some 5000)) st1))
        as (n' & k' & Hadv' & Hor & Hall').
      exists (n + n'), (n + k'). split; [|split; [exact Hor|]].
      * eapply advances_eq;
          [eapply advances_trans;
           [exact Hadv
           |eapply advances_trans;
            [apply (advances_emit (Sleep (Some 5000))); split; reflexivity
            |exact Hadv']]| |]; lia.
      * intros Hall. destruct (Hhd Hall) as [_ Htl].
        destruct (Hall' Htl) as [-> ->]. auto.
Qed.

Lemma runScan_busy (eps : list episode) (finished : Z) (st : sys) :
  Scanner.isScanning (scanner st) = true ->
  runScan toLowerCase eps finished st = (Undefined, st).
Proof. unfold runScan, runScan_enter. intros ->. reflexivity. Qed.

Lemma runScan_body_idle (eps : list episode) (finished : Z) (st : sys) :
  Scanner.isScanning (scanner (runScan_body toLowerCase eps finished st))
  = false.
Proof.
  unfold runScan_body.
  destruct (forLanguages toLowerCase SCAN_LANGUAGES eps st) as [[v|] st'];
    reflexivity.
Qed.

(** What one run adds up to. *)
Lemma runScan_body_advances (eps : list episode) (finished : Z) (st : sys) :
  exists n k,
    Scanner.totalScanned (scanner (runScan_body toLowerCase eps finished st))
    = Scanner.totalScanned (scanner st) + n
    /\ attempts (trace (runScan_body toLowerCase eps finished st))
       = attempts (trace st) + n
    /\ reported (trace (runScan_body toLowerCase eps finished st))
       = reported (trace st) + k
    /\ (Forall (fun ep => escapes ep = false) eps -> k = n).
Proof.
  unfold runScan_body.
  destruct (forLanguages_advances SCAN_LANGUAGES eps st)
    as (n & k & Hadv & _ & Hall).
  destruct (forLanguages toLowerCase SCAN_LANGUAGES eps st) as [c st'].
  simpl in Hadv, Hall. destruct Hadv as (_ & _ & Ht & Ha & Hr).
  exists n, k.
  destruct c as [v|]; simpl;
    rewrite ?attempts_app, ?reported_app; simpl;
    (repeat split; [lia|lia|lia|]); intros H; apply Hall, H.
Qed.

(** Taking the turns of one activation in a row is the [try / catch /
    finally] statement of [runScan]. *)
Lemma resume_all_runScan_body (finished : Z) (languages : list jsstring) :
  forall (eps : list episode) (st : sys),
    resume_all toLowerCase languages eps finished st
    = (let '(c, st') := forLanguages toLowerCase languages eps st in
       set_isScanning false
         match c with
         | Returned _ => set_lastScanTime finished st'
         | Thrown => emit (ConsoleError ScanFailed) st'
         end).
Proof.
  induction languages as [|language languages IH]; intros eps st; simpl;
    [reflexivity|].
  destruct (scanLanguage toLowerCase language REPOS_PER_LANGUAGE
              (hd offline_episode eps) st) as [[v|] st1]; simpl;
    [apply IH|reflexivity].
Qed.

(** The number of activations in flight is told by the flag. *)
Lemma step_flag (m : machine) (a : action) :
  List.length (pending m)
  = (if Scanner.isScanning (scanner (state m)) then 1 else 0)%nat ->
  List.length (pending (step toLowerCase m a))
  = (if Scanner.isScanning (scanner (state (step toLowerCase m a)))
     then 1 else 0)%nat.
Proof.
  intros Hinv. destruct a as [|i ep finished]; simpl.
  - unfold runScan_enter.
    destruct (Scanner.isScanning (scanner (state m))) eqn:Hflag; simpl;
      [rewrite Hflag; exact Hinv|].
    rewrite length_app, Hinv. reflexivity.
  - destruct (pending m !! i) as [languages|] eqn:Hi; [|exact Hinv].
    assert (Hlen : (i < List.length (pending m))%nat)
      by (eapply lookup_lt_Some; exact Hi).
    destruct (Scanner.isScanning (scanner (state m))) eqn:Hflag;
      [|rewrite Hinv in Hlen; lia].
    assert (Hi0 : i = 0%nat) by lia. subst i.
    destruct (pending m) as [|x [|y rest]]; simpl in Hinv; try lia.
    simpl in Hi. injection Hi as ->.
    destruct languages as [|language languages]; simpl; [reflexivity|].
    pose proof (scanLanguage_advances language REPOS_PER_LANGUAGE ep
                  (state m)) as (n & Hadv & _).
    destruct (scanLanguage toLowerCase language REPOS_PER_LANGUAGE ep
                (state m)) as [[v|] st1]; simpl; [|reflexivity].
    destruct Hadv as (_ & Hf & _). simpl in Hf. rewrite Hf, Hflag.
    reflexivity.
Qed.

Lemma run_flag (actions : list action) :
  forall (m : machine),
    List.length (pending m)
    = (if Scanner.isScanning (scanner (state m)) then 1 else 0)%nat ->
    List.length (pending (run toLowerCase actions m))
    = (if Scanner.isScanning (scanner (state (run toLowerCase actions m)))
       then 1 else 0)%nat.
Proof.
  induction actions as [|a actions IH]; intros m Hinv; simpl;
    [exact Hinv|].
  apply IH, step_flag, Hinv.
Qed.

End ScanFacts.

Section ScannerClaims.

Variable toLowerCase : jsstring -> jsstring.

Lemma forItems_extends (tk : tick) (maxRepos : Z) (items : list Repo.t) :
  forall (sc : Z) (st : sys),
  exists rest,
    trace (snd (forItems toLowerCase tk maxRepos items sc st))
    = trace st ++ rest.
Proof.
  induction items as [|repo items IH]; intros sc st; simpl.
  - exists []. symmetry. apply app_nil_r.
  - destruct (maxRepos <=? sc); simpl;
      [exists []; symmetry; apply app_nil_r|].
    destruct (IH (sc + 1)
                (emit (Sleep (Some 500))
                   (incr_totalScanned
                      (processRepo toLowerCase
                         (item tk (Repo.full_name repo)) repo st))))
      as (rest & ->).
    destruct (processRepo_trace toLowerCase
                (item tk (Repo.full_name repo)) repo st)
      as (rest' & Htr & _).
    simpl. rewrite Htr, <- !app_assoc. eexists. reflexivity.
Qed.

(** Every turn of the page loop starts with the search request for the
    current page. *)
Lemma iteration_request (language : jsstring) (maxRepos : Z) (tk : tick)
  (l : locals) (st : sys) :
  exists rest,
    trace (snd (iteration toLowerCase language maxRepos tk l st))
    = trace st ++ SearchRequest language perPage (page l) :: rest.
Proof.
  unfold iteration.
  destruct (reply tk) as [|response]; simpl;
    [rewrite <- app_assoc; eexists; reflexivity|].
  destruct (Response.ok response); simpl.
  - destruct (Response.items response) as [[[|repo items]|]|];
      cbn -[forItems]; rewrite <- ?app_assoc; try (eexists; reflexivity).
    destruct (forItems_extends tk maxRepos (repo :: items) (scannedCount l)
                (emit (SearchRequest language perPage (page l)) st))
      as (rest & Hrest).
    destruct (forItems toLowerCase tk maxRepos (repo :: items)
                (scannedCount l)
                (emit (SearchRequest language perPage (page l)) st))
      as [sc st'].
    simpl in *. rewrite Hrest, <- app_assoc. eexists. reflexivity.
  - destruct (Response.status response =? 403); simpl;
      rewrite <- ?app_assoc; simpl; eexists; reflexivity.
Qed.

(** C3: a call of runScan while isScanning is true returns at once and
    changes nothing (no request, no second run); a run that starts ends,
    whether its language scans return or one of them throws, with
    isScanning false; and in the event loop, whatever calls and
    resumptions happen after start-up, at most one activation of
    runScan is in flight, namely exactly when the flag is set. *)
Theorem single_flight (eps : list episode) (finished : Z) (st : sys)
  (actions : list action) (rows : list Project.t) :
  (Scanner.isScanning (scanner st) = true ->
   runScan toLowerCase eps finished st = (Undefined, st))
  /\ (Scanner.isScanning (scanner st) = false ->
      Scanner.isScanning
        (scanner (snd (runScan toLowerCase eps finished st))) = false
      /\ snd (runScan toLowerCase eps finished st)
         = resume_all toLowerCase SCAN_LANGUAGES eps finished
             (set_isScanning true st))
  /\ (let m := run toLowerCase actions (boot rows) in
      (List.length (pending m) <= 1)%nat
      /\ (Scanner.isScanning (scanner (state m)) = true
          <-> List.length (pending m) = 1%nat)
      /\ (Scanner.isScanning (scanner (state m)) = true ->
          step toLowerCase m Call = m)).
Proof.
  split; [apply runScan_busy|]. split.
  - intros Hidle. unfold runScan, runScan_enter. rewrite Hidle. cbn [snd].
    split; [apply runScan_body_idle|].
    rewrite resume_all_runScan_body. unfold runScan_body.
    destruct (forLanguages toLowerCase SCAN_LANGUAGES eps
                (set_isScanning true st)) as [c st']. reflexivity.
  - intros m.
    pose proof (run_flag toLowerCase actions (boot rows) eq_refl) as Hinv.
    fold m in Hinv. rewrite Hinv.
    destruct (Scanner.isScanning (scanner (state m))) eqn:Hflag.
    + split; [lia|]. split; [tauto|]. intros _. simpl.
      unfold runScan_enter. rewrite Hflag. reflexivity.
    + split; [lia|]. split; [split; [discriminate|lia]|discriminate].
Qed.

(** C4: when the search request is answered with status 403 the turn
    of the page loop sleeps for the wait time and continues with the
    same page number and the same scanned count, so the next turn sends
    the identical request; the lifetime counter and the table are
    untouched. The wait time is 60000 ms without a reset header, and
    with a header that parses to the instant [reset] (seconds) it is
    [reset * 1000 - Date.now()], which ends at that instant. *)
Theorem throttle_retries_same_page (language : jsstring) (maxRepos : Z)
  (tk : tick) (l : locals) (st : sys) (response : Response.t) :
  reply tk = Resolved response ->
  Response.status response = 403 ->
  let wait := waitTime (Response.x_ratelimit_reset response) (date_now tk) in
  let st' :=
    emit (Sleep wait)
      (emit (ConsoleError (ApiError 403))
         (emit (SearchRequest language perPage (page l)) st)) in
  iteration toLowerCase language maxRepos tk l st = (Continue, l, st')
  /\ scanner st' = scanner st
  /\ projects st' = projects st
  /\ (Response.x_ratelimit_reset response = None -> wait = Some 60000)
  /\ (forall h reset,
        Response.x_ratelimit_reset response = Some h ->
        ParseInt.parseInt h = Some reset ->
        wait = Some (reset * 1000 - date_now tk)
        /\ date_now tk + (reset * 1000 - date_now tk) = reset * 1000)
  /\ (forall ticks,
        scannedCount l < maxRepos ->
        whileLoop toLowerCase language maxRepos (tk :: ticks) l st
        = whileLoop toLowerCase language maxRepos ticks l st')
  /\ (forall tk',
        exists rest,
          trace (snd (iteration toLowerCase language maxRepos tk' l st'))
          = trace st' ++ SearchRequest language perPage (page l) :: rest).
Proof.
  intros Hreply Hstatus wait st'.
  assert (Hit : iteration toLowerCase language maxRepos tk l st
                = (Continue, l, st')).
  { unfold iteration. rewrite Hreply. unfold Response.ok.
    rewrite Hstatus. reflexivity. }
  split; [exact Hit|]. split; [reflexivity|]. split; [reflexivity|].
  split; [|split; [|split]].
  - unfold wait. intros ->. reflexivity.
  - intros h reset Hh Hparse. unfold wait, waitTime. rewrite Hh.
    destruct h as [|c h]; [discriminate|]. cbn [truthy].
    rewrite Hparse. split; [reflexivity|lia].
  - intros ticks Hlt. simpl.
    apply Z.ltb_lt in Hlt. rewrite Hlt, Hit. reflexivity.
  - intros tk'. apply iteration_request.
Qed.

(** C5: when the README fetch fails or yields nothing, processRepo
    only issues that request: it calls the store with nothing, leaves
    the table and the scanner as they were and logs no error; the item
    loop nevertheless counts the item, in the scanned count and in the
    lifetime counter, exactly as it counts an item whose README was
    found. *)
Theorem skipped_item_consumes_quota (w : item_world) (repo : Repo.t)
  (st : sys) :
  fetchReadme (readme w) = None ->
  let st' := processRepo toLowerCase w repo st in
  st' = emit (ReadmeRequest (Repo.full_name repo)) st
  /\ projects st' = projects st
  /\ scanner st' = scanner st
  /\ store_requests (trace st') = store_requests (trace st)
  /\ console_errors (trace st') = console_errors (trace st)
  /\ (forall tk maxRepos items sc,
        item tk (Repo.full_name repo) = w ->
        sc < maxRepos ->
        forItems toLowerCase tk maxRepos (repo :: items) sc st
        = forItems toLowerCase tk maxRepos items (sc + 1)
            (emit (Sleep (Some 500)) (incr_totalScanned st')))
  /\ (forall tk tk' maxRepos sc,
        item tk (Repo.full_name repo) = w ->
        sc < maxRepos ->
        fst (forItems toLowerCase tk maxRepos [repo] sc st) = sc + 1
        /\ fst (forItems toLowerCase tk' maxRepos [repo] sc st) = sc + 1
        /\ Scanner.totalScanned
             (scanner (snd (forItems toLowerCase tk maxRepos [repo] sc st)))
           = Scanner.totalScanned (scanner st) + 1
        /\ projects (snd (forItems toLowerCase tk maxRepos [repo] sc st))
           = projects st).
Proof.
  intros Hnone st'.
  assert (Hskip : st' = emit (ReadmeRequest (Repo.full_name repo)) st)
    by (apply processRepo_skip, Hnone).
  split; [exact Hskip|]. rewrite Hskip. simpl.
  rewrite store_requests_app, console_errors_app. simpl.
  rewrite !app_nil_r.
  do 4 (split; [reflexivity|]). split.
  - intros tk maxRepos items sc Hw Hlt. simpl.
    apply Z.leb_gt in Hlt. rewrite Hlt, Hw. fold st'. rewrite Hskip.
    reflexivity.
  - intros tk tk' maxRepos sc Hw Hlt. simpl.
    apply Z.leb_gt in Hlt. rewrite Hlt, Hw. simpl.
    rewrite processRepo_scanner. fold st'. rewrite Hskip.
    repeat split; reflexivity.
Qed.


(** C9 as amended: a language scan resolves to undefined (or throws),
    never to a count; the number of its enrichment attempts is the
    amount by which it advanced the lifetime counter totalScanned, and
    the count it logs when it returns. A run of runScan advances
    totalScanned by the number of attempts made during the run, which
    is the sum of the counts its language scans logged when all of them
    returned. *)
Theorem scan_counts_attempts (language : jsstring) (maxRepos : Z)
  (ep : episode) (eps : list episode) (finished : Z) (st : sys) :
  let r := scanLanguage toLowerCase language maxRepos ep st in
  let run := runScan toLowerCase eps finished st in
  (fst r = Returned Undefined \/ fst r = Thrown)
  /\ Scanner.totalScanned (scanner (snd r))
       - Scanner.totalScanned (scanner st)
     = attempts (trace (snd r)) - attempts (trace st)
  /\ (escapes ep = false ->
      fst r = Returned Undefined
      /\ exists tr,
           trace (snd r)
           = tr ++ [ScannedLog language
                      (attempts tr - attempts (trace st))])
  /\ fst run = Undefined
  /\ Scanner.totalScanned (scanner (snd run))
       - Scanner.totalScanned (scanner st)
     = attempts (trace (snd run)) - attempts (trace st)
  /\ (Forall (fun ep => escapes ep = false) eps ->
      Scanner.totalScanned (scanner (snd run))
        - Scanner.totalScanned (scanner st)
      = reported (trace (snd run)) - reported (trace st)).
Proof.
  intros r run.
  destruct (scanLanguage_advances toLowerCase language maxRepos ep st)
    as (n & Hadv & Hfst & Hlog).
  fold r in Hadv, Hfst, Hlog.
  destruct Hadv as (_ & _ & Ht & Ha & _).
  split; [rewrite Hfst; destruct (escapes ep); auto|].
  split; [lia|]. split.
  - intros Hesc. rewrite Hfst, Hesc. split; [reflexivity|].
    destruct (Hlog Hesc) as (tr & Htr & Hatt).
    exists tr. rewrite Htr. repeat f_equal. lia.
  - unfold run, runScan, runScan_enter.
    destruct (Scanner.isScanning (scanner st)) eqn:Hflag; cbn [fst snd].
    + split; [reflexivity|]. split; [lia|]. intros _. lia.
    + destruct (runScan_body_advances toLowerCase eps finished
                  (set_isScanning true st)) as (m & k & Ht' & Ha' & Hr' & Hk).
      simpl in Ht', Ha', Hr'.
      split; [reflexivity|]. split; [lia|].
      intros Hall. rewrite (Hk Hall) in Hr'. lia.
Qed.

End ScannerClaims.

(** ** The properties at concrete inputs *)

Section Witnesses.

Import Sample.

Lemma category_priority_witness :
  group_matches (asciiToLowerCase auth_api_doc)
    [lit "auth"; lit "authentication"] = true
  /\ group_matches (asciiToLowerCase auth_api_doc) [lit "api"; lit "rest"]
     = true
  /\ Analysis.category (analyzeRepo asciiToLowerCase (repo 1 60) auth_api_doc)
     = authentication.
Proof.
  split; [reflexivity|]. split; [reflexivity|].
  exact (proj1 (proj2 (category_priority asciiToLowerCase (repo 1 60)
                         auth_api_doc) eq_refl eq_refl)).
Defined.

Lemma upsert_twice_one_record_witness :
  unique_ids []
  /\ ProjectData.github_id first = ProjectData.github_id rescan
  /\ exists r,
       rows_of 1
         (snd (saveProject (Executes 9) rescan
                 (snd (saveProject (Executes 7) first [])))) = [r]
       /\ Project.stars r = 75
       /\ Project.created_at r = 7
       /\ Project.scanned_at r = 9.
Proof.
  assert (Hu : unique_ids []) by constructor.
  split; [exact Hu|]. split; [reflexivity|].
  destruct (upsert_twice_one_record [] first rescan 7 9 Hu eq_refl)
    as (r1 & r2 & _ & H2 & _ & _ & _ & _ & Hnow & _
        & (Hstars & _ & _ & _ & Hscanned) & _).
  exists r2. split; [exact H2|]. split; [exact Hstars|].
  split; [exact (Hnow eq_refl)|exact Hscanned].
Defined.


Lemma throttle_retries_same_page_witness :
  let tk := throttled (Some (lit "1700000002")) 1700000000000 in
  let l := {| scannedCount := 3; page := 2 |} in
  let response :=
    {| Response.status := 403;
       Response.x_ratelimit_reset := Some (lit "1700000002");
       Response.items := None |} in
  reply tk = Resolved response
  /\ Response.status response = 403
  /\ iteration asciiToLowerCase (lit "Go") 600 tk l (idle [])
     = (Continue, l,
        {| scanner := Scanner.new; projects := [];
           trace := [SearchRequest (lit "Go") 100 2;
                     ConsoleError (ApiError 403);
                     Sleep (Some 2000)] |}).
Proof.
  intros tk l response.
  split; [reflexivity|]. split; [reflexivity|].
  exact (proj1 (throttle_retries_same_page asciiToLowerCase (lit "Go") 600
                  tk l (idle []) response eq_refl eq_refl)).
Defined.

Lemma skipped_item_consumes_quota_witness :
  fetchReadme (readme (world None 7)) = None
  /\ processRepo asciiToLowerCase (world None 7) (repo 1 60) (idle [])
     = emit (ReadmeRequest (lit "acme/kit")) (idle [])
  /\ fst (forItems asciiToLowerCase (page_of [repo 1 60] None) 600
            [repo 1 60] 0 (idle [])) = 1.
Proof.
  split; [reflexivity|].
  destruct (skipped_item_consumes_quota asciiToLowerCase (world None 7)
              (repo 1 60) (idle []) eq_refl)
    as (Hskip & _ & _ & _ & _ & _ & Hcount).
  split; [exact Hskip|].
  exact (proj1 (Hcount (page_of [repo 1 60] None)
                  (page_of [repo 1 60] None) 600 0 eq_refl eq_refl)).
Defined.


Lemma single_flight_witness :
  Scanner.isScanning (scanner (busy [])) = true
  /\ runScan asciiToLowerCase [failing_episode] 9 (busy [])
     = (Undefined, busy [])
  /\ Scanner.isScanning
       (scanner (snd (runScan asciiToLowerCase [failing_episode] 9
                        (idle [])))) = false.
Proof.
  pose proof (single_flight asciiToLowerCase [failing_episode] 9 (busy [])
                [] []) as (Hbusy & _).
  pose proof (single_flight asciiToLowerCase [failing_episode] 9 (idle [])
                [] []) as (_ & Hidle & _).
  split; [reflexivity|]. split; [exact (Hbusy eq_refl)|].
  exact (proj1 (Hidle eq_refl)).
Defined.

(** C9, as the claim states it, fails: on a page of two repositories
    the language scan makes two enrichment attempts and resolves to
    undefined, not to the count 2. *)
Lemma scanLanguage_returns_no_count :
  let r := scanLanguage asciiToLowerCase (lit "Go") 2 go_episode (idle []) in
  attempts (trace (snd r)) = 2
  /\ Scanner.totalScanned (scanner (snd r)) = 2
  /\ fst r = Returned Undefined
  /\ Returned Undefined <> Returned (Number 2).
Proof.
  vm_compute. repeat split; discriminate.
Qed.

End Witnesses.

(** * Further properties *)

(** ** Substrings *)

Section IncludesFacts.

Lemma startsWith_spec (s p : jsstring) :
  startsWith s p = true <-> exists b, s = p ++ b.
Proof.
  revert s. induction p as [|c p IH]; intros s.
  - destruct s; simpl; (split; [intros _; eexists; reflexivity|reflexivity]).
  - destruct s as [|d s]; cbn [startsWith].
    + split; [discriminate|intros [b Hb]; discriminate].
    + rewrite andb_true_iff, N.eqb_eq, IH. split.
      * intros [-> [b ->]]. exists b. reflexivity.
      * intros [b Hb]. injection Hb as -> ->. split; [reflexivity|eauto].
Qed.

(** [s.includes(p)] holds exactly when [p] occurs in [s]. *)
Lemma includes_spec (s p : jsstring) :
  includes s p = true <-> exists a b, s = a ++ p ++ b.
Proof.
  induction s as [|d s IH].
  - change (includes [] p) with (startsWith [] p || false).
    rewrite orb_false_r, startsWith_spec. split.
    + intros [b Hb]. exists [], b. exact Hb.
    + intros (a & b & Hab). destruct a; [|discriminate].
      exists b. exact Hab.
  - change (includes (d :: s) p)
      with (startsWith (d :: s) p || includes s p).
    rewrite orb_true_iff, startsWith_spec, IH. split.
    + intros [[b Hb]|(a & b & Hab)].
      * exists [], b. exact Hb.
      * exists (d :: a), b. simpl. f_equal. exact Hab.
    + intros (a & b & Hab). destruct a as [|x a].
      * left. exists b. exact Hab.
      * right. injection Hab as -> ->. eauto.
Qed.

(** A text that contains [p] contains every part of [p]. *)
Lemma includes_trans (s p q : jsstring) :
  includes p q = true -> includes s p = true -> includes s q = true.
Proof.
  rewrite !includes_spec. intros (a & b & ->) (a' & b' & ->).
  exists (a' ++ a), (b ++ b'). rewrite <- !app_assoc. reflexivity.
Qed.

Lemma includes_longer (s p q : jsstring) :
  includes p q = true -> includes s q || includes s p = includes s q.
Proof.
  intros Hpq. destruct (includes s q) eqn:Hq; [reflexivity|]. simpl.
  destruct (includes s p) eqn:Hp; [|reflexivity].
  rewrite (includes_trans s p q Hpq Hp) in Hq. discriminate.
Qed.

(** [a === b] on strings is equality of the code units. *)
Lemma str_eqb_eq (a b : jsstring) : str_eqb a b = true <-> a = b.
Proof.
  revert b. induction a as [|c a IH]; intros [|d b]; cbn [str_eqb];
    try (split; discriminate); [tauto|].
  rewrite andb_true_iff, N.eqb_eq, IH. split.
  - intros [-> ->]. reflexivity.
  - intros H. injection H as -> ->. auto.
Qed.

End IncludesFacts.

(** ** Scoring engine, continued *)

Section ScoringMore.

Variable toLowerCase : jsstring -> jsstring.

(** X1: the fields of an analysis agree with each other: a document has
    documentation exactly when its quality is not poor; a quality of
    excellent or a complexity above low implies documentation; excellent
    documentation is never of low complexity, and high complexity never
    comes with poor documentation; more than 1000 stars make a
    repository production ready whatever its document says. *)
Theorem analysis_fields_agree (repo : Repo.t) (readme : jsstring) :
  let a := analyzeRepo toLowerCase repo readme in
  (Analysis.has_documentation a = true
   <-> Analysis.documentation_quality a <> poor)
  /\ (Analysis.complexity a <> low -> Analysis.has_documentation a = true)
  /\ (Analysis.documentation_quality a = excellent ->
      Analysis.complexity a <> low)
  /\ (Analysis.documentation_quality a = good ->
      str_length readme > 1500)
  /\ (Analysis.complexity a = high ->
      Analysis.documentation_quality a <> poor)
  /\ (Repo.stargazers_count repo > 1000 ->
      Analysis.production_ready a = true).
Proof.
  intros a. subst a. simpl.
  unfold assessDocQuality, assessComplexity.
  destruct (Z.ltb_spec 3000 (str_length readme)),
    (Z.ltb_spec 1500 (str_length readme)),
    (Z.ltb_spec 500 (str_length readme)),
    (Z.ltb_spec 5000 (str_length readme)),
    (Z.ltb_spec 2000 (str_length readme)),
    (Z.ltb_spec 1000 (Repo.stargazers_count repo));
    try lia;
    destruct (includes (toLowerCase readme) (lit "install")),
      (includes (toLowerCase readme) (lit "usage")),
      (includes (toLowerCase readme) (lit "example")),
      (includes (toLowerCase readme) (lit "production"));
    simpl; repeat split; intros; try congruence; try lia.
Qed.

Lemma detectFeatures_elem (text : jsstring) (f : feature) :
  In f (detectFeatures text) <-> includes text (feature_str f) = true.
Proof.
  unfold detectFeatures, pushIf.
  change (lit "typescript") with (feature_str typescript).
  change (lit "async") with (feature_str async).
  change (lit "security") with (feature_str security).
  change (lit "performance") with (feature_str performance).
  destruct (includes text (feature_str typescript)) eqn:H1,
    (includes text (feature_str async)) eqn:H2,
    (includes text (feature_str security)) eqn:H3,
    (includes text (feature_str performance)) eqn:H4;
    destruct f; rewrite ?H1, ?H2, ?H3, ?H4; cbn;
    intuition congruence.
Qed.

(** X2: the feature tags of an analysis are a selection from typescript,
    async, security, performance in this order, so no tag occurs twice;
    a tag is present exactly when its term occurs in the lower-cased
    document. *)
Theorem features_selected_in_order (repo : Repo.t) (readme : jsstring) :
  let features := Analysis.features (analyzeRepo toLowerCase repo readme) in
  sublist features all_features
  /\ NoDup features
  /\ (forall f, In f features
                <-> includes (toLowerCase readme) (feature_str f) = true).
Proof.
  intros features. subst features. simpl.
  assert (Hsub : sublist (detectFeatures (toLowerCase readme)) all_features).
  { unfold detectFeatures, pushIf, all_features.
    destruct (includes (toLowerCase readme) (lit "typescript")),
      (includes (toLowerCase readme) (lit "async")),
      (includes (toLowerCase readme) (lit "security")),
      (includes (toLowerCase readme) (lit "performance")); simpl;
      repeat first [apply sublist_nil | apply sublist_skip
                   | apply sublist_cons]. }
  split; [exact Hsub|]. split.
  - eapply sublist_NoDup; [|exact Hsub].
    unfold all_features.
    repeat (apply NoDup_cons; split;
            [intros Hin;
             repeat (apply elem_of_cons in Hin as [Hin|Hin];
                     [discriminate|]);
             inversion Hin|]).
    apply NoDup_nil_2.
  - intros f. apply detectFeatures_elem.
Qed.

(** X3: for one and the same document, a repository with at least as
    many stars never gets a lower utility score. *)
Theorem score_monotone_in_stars (repo1 repo2 : Repo.t) (readme : jsstring) :
  Repo.stargazers_count repo1 <= Repo.stargazers_count repo2 ->
  PrimFloat.leb
    (calculateUtilityScore repo1 readme (analyzeRepo toLowerCase repo1 readme))
    (calculateUtilityScore repo2 readme (analyzeRepo toLowerCase repo2 readme))
  = true.
Proof.
  intros Hle. unfold calculateUtilityScore, analyzeRepo.
  cbn [Analysis.features Analysis.documentation_quality
       Analysis.production_ready].
  generalize (detectFeatures_length (toLowerCase readme)).
  generalize (detectFeatures (toLowerCase readme)) as fs. intros fs Hlen.
  destruct fs as [|? [|? [|? [|? [|? ?]]]]]; simpl in Hlen; try lia;
    destruct (assessDocQuality toLowerCase readme);
    destruct (includes (toLowerCase readme) (lit "production"));
    destruct (Z.ltb_spec 10000 (Repo.stargazers_count repo1)),
      (Z.ltb_spec 1000 (Repo.stargazers_count repo1)),
      (Z.ltb_spec 100 (Repo.stargazers_count repo1)); try lia;
    destruct (Z.ltb_spec 10000 (Repo.stargazers_count repo2)),
      (Z.ltb_spec 1000 (Repo.stargazers_count repo2)),
      (Z.ltb_spec 100 (Repo.stargazers_count repo2)); try lia;
    vm_compute; reflexivity.
Qed.

(** X4: the category depends on the authentication and testing groups
    only through their shorter terms: the chain of analyzeRepo is first
    match over the groups with auth alone and test alone, so a document
    is classified authentication exactly when its lower-cased text
    contains auth, and when it is classified testing it contains test. *)
Theorem category_short_terms (repo : Repo.t) (readme : jsstring) :
  let c := Analysis.category (analyzeRepo toLowerCase repo readme) in
  c = first_match (toLowerCase readme) short_term_groups
  /\ (c = authentication
      <-> includes (toLowerCase readme) (lit "auth") = true)
  /\ (c = testing -> includes (toLowerCase readme) (lit "test") = true).
Proof.
  intros c. subst c. cbn [Analysis.category analyzeRepo].
  assert (Hshort : detectCategory (toLowerCase readme)
                   = first_match (toLowerCase readme) short_term_groups).
  { unfold detectCategory, short_term_groups, first_match, group_matches,
      existsb.
    rewrite !orb_false_r.
    rewrite (includes_longer _ (lit "authentication") (lit "auth") eq_refl).
    rewrite (orb_comm (includes _ (lit "testing"))).
    rewrite (includes_longer _ (lit "testing") (lit "test") eq_refl).
    reflexivity. }
  split; [exact Hshort|]. rewrite Hshort.
  unfold short_term_groups, first_match, group_matches, existsb.
  rewrite !orb_false_r.
  destruct (includes (toLowerCase readme) (lit "auth"));
    [split; [split; reflexivity|discriminate]|].
  split; [split; [|discriminate]|].
  - repeat match goal with
           | |- context [if ?b then _ else _] => destruct b
           end; discriminate.
  - repeat match goal with
           | |- context [if ?b then _ else _] => destruct b eqn:?
           end; try discriminate; reflexivity.
Qed.

End ScoringMore.

(** ** Scanner, continued *)

Section WithinScan.

Variable toLowerCase : jsstring -> jsstring.

(** A relation on tables that the saves of [processRepo] respect. *)
Variable R : list Project.t -> list Project.t -> Prop.
Hypothesis R_refl : forall rows, R rows rows.
Hypothesis R_trans : forall a b c, R a b -> R b c -> R a c.
Hypothesis R_save : forall reply repo readme rows,
  truthy readme = true ->
  R rows (snd (saveProject reply (projectData toLowerCase repo readme) rows)).

Lemma logged_languages_app (a b : list event) :
  logged_languages (a ++ b) = logged_languages a ++ logged_languages b.
Proof.
  induction a as [|e a IH]; simpl; [reflexivity|].
  destruct e; rewrite IH; reflexivity.
Qed.

Lemma within_refl (st : sys) : within_scan R st st.
Proof.
  unfold within_scan. repeat split; auto.
  exists []. rewrite app_nil_r. simpl. repeat split; lia.
Qed.

Lemma within_trans (st1 st2 st3 : sys) :
  within_scan R st1 st2 -> within_scan R st2 st3 -> within_scan R st1 st3.
Proof.
  intros (H1 & H2 & H3 & HR & d & Hd & Hl & Hs)
         (H1' & H2' & H3' & HR' & d' & Hd' & Hl' & Hs').
  unfold within_scan.
  split; [congruence|]. split; [congruence|]. split; [congruence|].
  split; [eauto|].
  exists (d ++ d'). rewrite Hd', Hd, <- app_assoc.
  rewrite logged_languages_app, store_requests_app, attempts_app, Hl, Hl'.
  rewrite length_app. split; [reflexivity|]. split; [reflexivity|lia].
Qed.

(** The steps that only add events to the trace. *)
Lemma within_events (d : list event) (st st' : sys) :
  scanner st' = scanner st ->
  projects st' = projects st ->
  trace st' = trace st ++ d ->
  logged_languages d = [] ->
  Z.of_nat (List.length (store_requests d)) <= attempts d ->
  within_scan R st st'.
Proof.
  intros Hs Hp Ht Hl Hle. unfold within_scan. rewrite Hs, Hp.
  repeat split; auto. exists d. auto.
Qed.

Lemma within_incr (st : sys) : within_scan R st (incr_totalScanned st).
Proof.
  unfold within_scan. simpl. repeat split; auto.
  exists []. rewrite app_nil_r. simpl. repeat split; lia.
Qed.

Lemma processRepo_within (w : item_world) (repo : Repo.t) (st : sys) :
  within_scan R st (processRepo toLowerCase w repo st).
Proof.
  unfold processRepo.
  destruct (fetchReadme (readme w)) as [content|];
    [|apply (within_events [ReadmeRequest (Repo.full_name repo)]);
      simpl; auto; lia].
  destruct (truthy content) eqn:Htruthy; simpl;
    [|apply (within_events [ReadmeRequest (Repo.full_name repo)]);
      simpl; auto; lia].
  pose proof (R_save (store w) repo content (projects st) Htruthy) as Hsave.
  destruct (saveProject (store w) (projectData toLowerCase repo content)
              (projects st)) as [[|] rows]; simpl in Hsave;
    unfold within_scan; simpl; (repeat split; auto);
    rewrite <- ?app_assoc; simpl; eexists; (split; [reflexivity|]);
    simpl; split; (reflexivity || lia).
Qed.

Lemma forItems_within (tk : tick) (maxRepos : Z) (items : list Repo.t) :
  forall (sc : Z) (st : sys),
    within_scan R st (snd (forItems toLowerCase tk maxRepos items sc st)).
Proof.
  induction items as [|repo items IH]; intros sc st; simpl;
    [apply within_refl|].
  destruct (maxRepos <=? sc); simpl; [apply within_refl|].
  eapply within_trans; [apply processRepo_within|].
  eapply within_trans; [apply within_incr|].
  eapply within_trans; [|apply IH].
  apply (within_events [Sleep (Some 500)]); simpl; auto; lia.
Qed.

Ltac one_event He :=
  cbn [snd];
  match goal with
  | |- within_scan _ _ (emit ?e _) => apply (He e); reflexivity
  end.

Lemma iteration_within (language : jsstring) (maxRepos : Z) (tk : tick)
  (l : locals) (st : sys) :
  within_scan R st (snd (iteration toLowerCase language maxRepos tk l st)).
Proof.
  unfold iteration.
  set (st0 := emit (SearchRequest language perPage (page l)) st).
  assert (H0 : within_scan R st st0)
    by (apply (within_events [SearchRequest language perPage (page l)]);
        simpl; auto; lia).
  assert (He : forall e, logged_languages [e] = [] ->
                         store_requests [e] = [] ->
                         within_scan R st (emit e st0)).
  { intros e Hl Hs. eapply within_trans; [exact H0|].
    apply (within_events [e]);
      [reflexivity|reflexivity|reflexivity|exact Hl|].
    rewrite Hs. destruct e; simpl; lia. }
  destruct (reply tk) as [|response]; [one_event He|].
  destruct (Response.ok response); cbn [negb].
  - destruct (Response.items response) as [[[|repo items]|]|];
      cbn -[forItems]; try exact H0; try one_event He.
    pose proof (forItems_within tk maxRepos (repo :: items) (scannedCount l)
                  st0) as H.
    destruct (forItems toLowerCase tk maxRepos (repo :: items)
                (scannedCount l) st0) as [sc st'].
    eapply within_trans; [exact H0|exact H].
  - destruct (Response.status response =? 403); cbn [snd].
    + eapply within_trans;
        [apply (He (ConsoleError (ApiError (Response.status response))));
         reflexivity|].
      apply (within_events
               [Sleep (waitTime (Response.x_ratelimit_reset response)
                         (date_now tk))]); simpl; auto; lia.
    + one_event He.
Qed.

Lemma whileLoop_within (language : jsstring) (maxRepos : Z)
  (ticks : list tick) :
  forall (l : locals) (st : sys),
    within_scan R st
      (snd (whileLoop toLowerCase language maxRepos ticks l st)).
Proof.
  induction ticks as [|tk ticks IH]; intros l st; cbn [whileLoop];
    destruct (scannedCount l <? maxRepos); try apply within_refl.
  - pose proof (iteration_within language maxRepos offline l st) as H.
    destruct (iteration toLowerCase language maxRepos offline l st)
      as [[sig l'] st']. exact H.
  - pose proof (iteration_within language maxRepos tk l st) as H.
    destruct (iteration toLowerCase language maxRepos tk l st)
      as [[sig l'] st'].
    destruct sig; [|exact H].
    eapply within_trans; [exact H|apply IH].
Qed.

Lemma scan_frame_trans (logs logs' : list jsstring) (st1 st2 st3 : sys) :
  scan_frame R logs st1 st2 -> scan_frame R logs' st2 st3 ->
  scan_frame R (logs ++ logs') st1 st3.
Proof.
  intros (H1 & H2 & H3 & HR & d & Hd & Hl & Hs)
         (H1' & H2' & H3' & HR' & d' & Hd' & Hl' & Hs').
  unfold scan_frame.
  split; [congruence|]. split; [congruence|]. split; [congruence|].
  split; [eauto|].
  exists (d ++ d'). rewrite Hd', Hd, <- app_assoc.
  rewrite logged_languages_app, store_requests_app, attempts_app, Hl, Hl'.
  rewrite length_app. split; [reflexivity|]. split; [reflexivity|lia].
Qed.

Lemma scanLanguage_frame (language : jsstring) (maxRepos : Z) (ep : episode)
  (st : sys) :
  scan_frame R (if escapes ep then [] else [language]) st
    (snd (scanLanguage toLowerCase language maxRepos ep st)).
Proof.
  unfold scanLanguage.
  pose proof (whileLoop_within language maxRepos (ticks ep)
                {| scannedCount := 0; page := 1 |} st) as H.
  destruct (whileLoop toLowerCase language maxRepos (ticks ep)
              {| scannedCount := 0; page := 1 |} st) as [l st'].
  cbn [snd] in H. destruct (escapes ep); cbn [snd]; [exact H|].
  change [language] with ([] ++ [language]).
  eapply scan_frame_trans; [exact H|].
  unfold scan_frame. simpl. repeat split; auto.
  exists [ScannedLog language (scannedCount l)]. simpl.
  repeat split; lia.
Qed.

(** The language loop reports the languages it was given up to the first
    scan that throws. *)
Lemma forLanguages_frame (languages : list jsstring) :
  forall (eps : list episode) (st : sys),
  exists k,
    (k <= List.length languages)%nat
    /\ scan_frame R (firstn k languages) st
         (snd (forLanguages toLowerCase languages eps st))
    /\ (fst (forLanguages toLowerCase languages eps st) = Returned Undefined
        -> k = List.length languages)
    /\ (fst (forLanguages toLowerCase languages eps st) = Thrown ->
        (k < List.length languages)%nat
        /\ escapes (nth k eps offline_episode) = true).
Proof.
  induction languages as [|language languages IH]; intros eps st;
    cbn [forLanguages].
  - exists 0%nat. split; [simpl; lia|]. split; [apply within_refl|].
    split; [reflexivity|discriminate].
  - pose proof (scanLanguage_frame language REPOS_PER_LANGUAGE
                  (hd offline_episode eps) st) as Hf.
    pose proof (scanLanguage_advances toLowerCase language REPOS_PER_LANGUAGE
                  (hd offline_episode eps) st) as (n & _ & Hfst & _).
    destruct (scanLanguage toLowerCase language REPOS_PER_LANGUAGE
                (hd offline_episode eps) st) as [c st1].
    cbn [fst snd] in Hf, Hfst.
    destruct (escapes (hd offline_episode eps)) eqn:Hesc; subst c.
    + exists 0%nat. cbn [fst snd firstn List.length].
      split; [lia|]. split; [exact Hf|]. split; [discriminate|].
      intros _. split; [lia|].
      destruct eps; [discriminate|exact Hesc].
    + destruct (IH (tl eps) (emit (Sleep (Some 5000)) st1))
        as (k & Hk & Hframe & Hret & Hthr).
      exists (S k). cbn [firstn List.length].
      split; [lia|]. split; [|split].
      * change (language :: firstn k languages)
          with ([language] ++ ([] ++ firstn k languages)).
        eapply scan_frame_trans; [exact Hf|].
        eapply scan_frame_trans; [|exact Hframe].
        apply (within_events [Sleep (Some 5000)]); simpl; auto; lia.
      * intros Hr. rewrite (Hret Hr). reflexivity.
      * intros Ht. destruct (Hthr Ht) as [Hlt Hex].
        split; [lia|]. destruct eps as [|ep eps]; simpl in *; [|exact Hex].
        destruct k; discriminate.
Qed.

Lemma nth_no_escape (eps : list episode) (k : nat) :
  Forall (fun ep => escapes ep = false) eps ->
  escapes (nth k eps offline_episode) = false.
Proof.
  intros Hall. revert k.
  induction Hall as [|ep eps Hep Hall IH]; intros [|k]; simpl; auto.
Qed.

(** One run: the languages reported are the first [k] of the list;
    all five exactly when no scan threw, and then the completion time is
    recorded; otherwise the time of the last completed run stays and the
    failure is logged last. *)
Lemma runScan_body_frame (eps : list episode) (finished : Z) (st : sys) :
  exists k d,
    (k <= List.length SCAN_LANGUAGES)%nat
    /\ R (projects st) (projects (runScan_body toLowerCase eps finished st))
    /\ trace (runScan_body toLowerCase eps finished st) = trace st ++ d
    /\ logged_languages d = firstn k SCAN_LANGUAGES
    /\ Z.of_nat (List.length (store_requests d)) <= attempts d
    /\ (k = List.length SCAN_LANGUAGES ->
        Scanner.lastScanTime
          (scanner (runScan_body toLowerCase eps finished st))
        = Some finished)
    /\ ((k < List.length SCAN_LANGUAGES)%nat ->
        Scanner.lastScanTime
          (scanner (runScan_body toLowerCase eps finished st))
        = Scanner.lastScanTime (scanner st)
        /\ last d = Some (ConsoleError ScanFailed)
        /\ escapes (nth k eps offline_episode) = true)
    /\ (Forall (fun ep => escapes ep = false) eps ->
        k = List.length SCAN_LANGUAGES).
Proof.
  unfold runScan_body.
  destruct (forLanguages_frame SCAN_LANGUAGES eps st)
    as (k & Hk & Hframe & Hret & Hthr).
  destruct (forLanguages_advances toLowerCase SCAN_LANGUAGES eps st)
    as (_ & _ & _ & Hor & _).
  destruct (forLanguages toLowerCase SCAN_LANGUAGES eps st) as [c st'].
  cbn [fst snd] in *.
  destruct Hframe as (Hlast & _ & _ & HR & d & Hd & Hlog & Hstores).
  destruct Hor as [-> | ->].
  - exists k, d. specialize (Hret eq_refl).
    split; [exact Hk|]. split; [exact HR|]. split; [exact Hd|].
    split; [exact Hlog|]. split; [exact Hstores|].
    split; [reflexivity|]. split; [intros Hlt; exfalso; lia|].
    intros _. exact Hret.
  - exists k, (d ++ [ConsoleError ScanFailed]).
    destruct (Hthr eq_refl) as [Hlt Hesc].
    split; [exact Hk|]. split; [exact HR|].
    split; [simpl; rewrite Hd, <- app_assoc; reflexivity|].
    rewrite logged_languages_app, store_requests_app, attempts_app.
    simpl in Hlt |- *. rewrite !app_nil_r.
    split; [exact Hlog|]. split; [lia|].
    split; [intros Heq; exfalso; lia|]. split.
    + intros _. split; [exact Hlast|]. split; [apply last_snoc|exact Hesc].
    + intros Hall. rewrite (nth_no_escape eps k Hall) in Hesc. discriminate.
Qed.

(** Every turn of the event loop changes the table along [R]. *)
Lemma step_table (m : machine) (a : action) :
  R (projects (state m)) (projects (state (step toLowerCase m a))).
Proof.
  destruct a as [|i ep finished]; simpl.
  - unfold runScan_enter.
    destruct (Scanner.isScanning (scanner (state m))); simpl; apply R_refl.
  - destruct (pending m !! i) as [languages|]; [|apply R_refl].
    destruct languages as [|language languages]; simpl; [apply R_refl|].
    pose proof (scanLanguage_frame language REPOS_PER_LANGUAGE ep (state m))
      as (_ & _ & _ & HR & _).
    destruct (scanLanguage toLowerCase language REPOS_PER_LANGUAGE ep
                (state m)) as [[v|] st1]; simpl in *; exact HR.
Qed.

Lemma run_table (actions : list action) :
  forall (m : machine),
    R (projects (state m)) (projects (state (run toLowerCase actions m))).
Proof.
  induction actions as [|a actions IH]; intros m; simpl; [apply R_refl|].
  eapply R_trans; [apply step_table|apply IH].
Qed.

End WithinScan.

Section TableFacts.

Variable toLowerCase : jsstring -> jsstring.

Lemma same_identity_refl (r : Project.t) : same_identity r r.
Proof. unfold same_identity. repeat split. Qed.

Lemma same_identity_trans (a b c : Project.t) :
  same_identity a b -> same_identity b c -> same_identity a c.
Proof.
  unfold same_identity. intuition congruence.
Qed.

Lemma table_kept_refl (rows : list Project.t) : table_kept rows rows.
Proof.
  intros Hu. split; [exact Hu|]. split; [lia|].
  intros r Hr. exists r. split; [exact Hr|apply same_identity_refl].
Qed.

Lemma table_kept_trans (a b c : list Project.t) :
  table_kept a b -> table_kept b c -> table_kept a c.
Proof.
  intros Hab Hbc Hu.
  destruct (Hab Hu) as (Hub & Hlen & Hrows).
  destruct (Hbc Hub) as (Huc & Hlen' & Hrows').
  split; [exact Huc|]. split; [lia|].
  intros r Hr. destruct (Hrows r Hr) as (r' & Hr' & Hid).
  destruct (Hrows' r' Hr') as (r'' & Hr'' & Hid').
  exists r''. split; [exact Hr''|].
  eapply same_identity_trans; [exact Hid|exact Hid'].
Qed.

(** A save, executed or not, keeps the rows it finds. *)
Lemma saveProject_kept (reply : db_reply) (p : ProjectData.t)
  (rows : list Project.t) :
  table_kept rows (snd (saveProject reply p rows)).
Proof.
  destruct reply as [now|]; [|apply table_kept_refl].
  intros Hu. cbn [saveProject snd].
  split; [apply upsert_unique, Hu|]. unfold upsert.
  destruct (existsb (conflicts (excluded_row now p)) rows).
  - rewrite List.length_map. split; [lia|].
    intros r Hr.
    exists (if conflicts (excluded_row now p) r
            then do_update now (excluded_row now p) r else r).
    split.
    + apply (List.in_map
               (fun r => if conflicts (excluded_row now p) r
                         then do_update now (excluded_row now p) r else r)).
      exact Hr.
    + destruct (conflicts (excluded_row now p) r);
        unfold same_identity; repeat split.
  - rewrite length_app. split; [lia|].
    intros r Hr. exists r.
    split; [apply List.in_or_app; left; exact Hr|apply same_identity_refl].
Qed.

Lemma or_zero_score (repo : Repo.t) (readme : jsstring)
  (analysis : Analysis.t) :
  (List.length (Analysis.features analysis) <= 4)%nat ->
  or_zero (calculateUtilityScore repo readme analysis)
  = calculateUtilityScore repo readme analysis.
Proof.
  destruct analysis as [c fs h q cx p]; simpl; intros Hlen.
  unfold calculateUtilityScore; simpl.
  destruct fs as [|? [|? [|? [|? [|? ?]]]]]; simpl in Hlen; try lia;
    destruct (10000 <? Repo.stargazers_count repo);
    destruct (1000 <? Repo.stargazers_count repo);
    destruct (100 <? Repo.stargazers_count repo);
    destruct q; destruct p; vm_compute; reflexivity.
Qed.

(** The row [processRepo] proposes is within the bounds. *)
Lemma projectData_ok (now : Z) (repo : Repo.t) (readme : jsstring) :
  stored_ok (excluded_row now (projectData toLowerCase repo readme)).
Proof.
  unfold stored_ok.
  cbn [excluded_row projectData Project.utility_score
       Project.readme_content ProjectData.utility_score
       ProjectData.readme_content].
  split.
  - rewrite or_zero_score by (simpl; apply detectFeatures_length).
    apply calculateUtilityScore_range. simpl. apply detectFeatures_length.
  - unfold str_length, substring0. rewrite length_take. lia.
Qed.

Lemma upsert_ok (now : Z) (e : Project.t) (rows : list Project.t) :
  stored_ok e -> table_ok rows (upsert now e rows).
Proof.
  intros He Hall. unfold upsert.
  destruct (existsb (conflicts e) rows).
  - rewrite List.Forall_forall in *. intros r' Hr'.
    apply List.in_map_iff in Hr' as (r & <- & Hr).
    destruct (conflicts e r); [exact He|apply Hall, Hr].
  - apply Forall_app. split; [exact Hall|].
    constructor; [exact He|constructor].
Qed.

Lemma processRepo_save_ok (reply : db_reply) (repo : Repo.t)
  (readme : jsstring) (rows : list Project.t) :
  truthy readme = true ->
  table_ok rows
    (snd (saveProject reply (projectData toLowerCase repo readme) rows)).
Proof.
  intros _. destruct reply as [now|]; simpl; [|intros H; exact H].
  apply upsert_ok, projectData_ok.
Qed.

End TableFacts.

Section ScannerMore.

Variable toLowerCase : jsstring -> jsstring.

Lemma any_table_refl (rows : list Project.t) : any_table rows rows.
Proof. exact I. Qed.

Lemma any_table_trans (a b c : list Project.t) :
  any_table a b -> any_table b c -> any_table a c.
Proof. intros _ _. exact I. Qed.

Lemma any_table_save (reply : db_reply) (repo : Repo.t) (readme : jsstring)
  (rows : list Project.t) :
  truthy readme = true ->
  any_table rows
    (snd (saveProject reply (projectData toLowerCase repo readme) rows)).
Proof. intros _. exact I. Qed.


(** X6: the scanner never removes or duplicates a project: over any
    sequence of calls and resumptions of runScan, and over any single
    run, a table with unique github_id values keeps them unique, does not
    shrink, and every row it had is still there with the same github_id,
    name, full_name, description, language, topics, category and
    created_at. *)
Theorem scanner_keeps_rows (actions : list action) (m : machine)
  (eps : list episode) (finished : Z) :
  unique_ids (projects (state m)) ->
  let after_loop := projects (state (run toLowerCase actions m)) in
  let after_run :=
    projects (snd (runScan toLowerCase eps finished (state m))) in
  (unique_ids after_loop
   /\ (List.length (projects (state m)) <= List.length after_loop)%nat
   /\ forall r, In r (projects (state m)) ->
                exists r', In r' after_loop /\ same_identity r r')
  /\ (unique_ids after_run
      /\ (List.length (projects (state m)) <= List.length after_run)%nat
      /\ forall r, In r (projects (state m)) ->
                   exists r', In r' after_run /\ same_identity r r').
Proof.
  intros Hu after_loop after_run. split.
  - apply (run_table toLowerCase table_kept table_kept_refl table_kept_trans
             (fun reply repo readme rows _ =>
                saveProject_kept reply _ rows) actions m Hu).
  - unfold after_run, runScan, runScan_enter.
    destruct (Scanner.isScanning (scanner (state m))); cbn [snd];
      [apply table_kept_refl, Hu|].
    destruct (runScan_body_frame toLowerCase table_kept table_kept_refl
                table_kept_trans
                (fun reply repo readme rows _ =>
                   saveProject_kept reply _ rows)
                eps finished (set_isScanning true (state m)))
      as (k & d & _ & HR & _).
    apply HR, Hu.
Qed.

(** X7: every row the scanner writes is within the bounds of the data
    model: over any sequence of calls and resumptions and over any single
    run, if all rows of the table have a utility score between 5 and 10
    and a README excerpt of at most 10000 code units, so have all rows
    afterwards. *)
Theorem scanner_rows_within_bounds (actions : list action) (m : machine)
  (eps : list episode) (finished : Z) :
  Forall stored_ok (projects (state m)) ->
  Forall stored_ok (projects (state (run toLowerCase actions m)))
  /\ Forall stored_ok
       (projects (snd (runScan toLowerCase eps finished (state m)))).
Proof.
  assert (Hrefl : forall rows, table_ok rows rows) by (intros rows H; exact H).
  assert (Htrans : forall a b c, table_ok a b -> table_ok b c -> table_ok a c)
    by (intros a b c Hab Hbc H; apply Hbc, Hab, H).
  intros Hok. split.
  - apply (run_table toLowerCase table_ok Hrefl Htrans
             (processRepo_save_ok toLowerCase) actions m Hok).
  - unfold runScan, runScan_enter.
    destruct (Scanner.isScanning (scanner (state m))); cbn [snd];
      [exact Hok|].
    destruct (runScan_body_frame toLowerCase table_ok Hrefl Htrans
                (processRepo_save_ok toLowerCase)
                eps finished (set_isScanning true (state m)))
      as (k & d & _ & HR & _).
    apply HR, Hok.
Qed.

Lemma forItems_count (tk : tick) (maxRepos : Z) (items : list Repo.t) :
  forall (sc : Z) (st : sys),
    fst (forItems toLowerCase tk maxRepos items sc st) <= Z.max sc maxRepos.
Proof.
  induction items as [|repo items IH]; intros sc st; simpl; [lia|].
  destruct (Z.leb_spec maxRepos sc); simpl; [lia|].
  etransitivity; [apply IH|]. lia.
Qed.

Lemma iteration_count (language : jsstring) (maxRepos : Z) (tk : tick)
  (l : locals) (st : sys) :
  scannedCount (snd (fst (iteration toLowerCase language maxRepos tk l st)))
  <= Z.max (scannedCount l) maxRepos.
Proof.
  unfold iteration.
  destruct (reply tk) as [|response]; cbn [fst snd]; [lia|].
  destruct (Response.ok response); cbn [negb].
  - destruct (Response.items response) as [[[|repo items]|]|];
      cbn -[forItems]; try lia.
    pose proof (forItems_count tk maxRepos (repo :: items) (scannedCount l)
                  (emit (SearchRequest language perPage (page l)) st)) as H.
    destruct (forItems toLowerCase tk maxRepos (repo :: items)
                (scannedCount l)
                (emit (SearchRequest language perPage (page l)) st))
      as [sc st'].
    exact H.
  - destruct (Response.status response =? 403); cbn [fst snd]; lia.
Qed.

Lemma whileLoop_count (language : jsstring) (maxRepos : Z)
  (ticks : list tick) :
  forall (l : locals) (st : sys),
    scannedCount (fst (whileLoop toLowerCase language maxRepos ticks l st))
    <= Z.max (scannedCount l) maxRepos.
Proof.
  induction ticks as [|tk ticks IH]; intros l st; cbn [whileLoop];
    destruct (scannedCount l <? maxRepos); cbn [fst]; try lia.
  - pose proof (iteration_count language maxRepos offline l st) as H.
    destruct (iteration toLowerCase language maxRepos offline l st)
      as [[sig l'] st']. exact H.
  - pose proof (iteration_count language maxRepos tk l st) as H.
    destruct (iteration toLowerCase language maxRepos tk l st)
      as [[sig l'] st']. cbn [fst snd] in H.
    destruct sig; [|exact H].
    etransitivity; [apply IH|]. lia.
Qed.

(** The attempts of one language scan stay within its quota. *)
Lemma scanLanguage_quota (language : jsstring) (maxRepos : Z) (ep : episode)
  (st : sys) :
  attempts (trace (snd (scanLanguage toLowerCase language maxRepos ep st)))
  - attempts (trace st) <= Z.max 0 maxRepos.
Proof.
  unfold scanLanguage.
  pose proof (whileLoop_count language maxRepos (ticks ep)
                {| scannedCount := 0; page := 1 |} st) as Hc.
  pose proof (whileLoop_advances toLowerCase language maxRepos (ticks ep)
                {| scannedCount := 0; page := 1 |} st) as (_ & _ & _ & Ha & _).
  destruct (whileLoop toLowerCase language maxRepos (ticks ep)
              {| scannedCount := 0; page := 1 |} st) as [l st'].
  cbn [fst snd scannedCount] in *.
  destruct (escapes ep); cbn [snd]; [lia|].
  simpl. rewrite attempts_app. simpl. lia.
Qed.

Lemma forLanguages_quota (languages : list jsstring) :
  forall (eps : list episode) (st : sys),
    attempts (trace (snd (forLanguages toLowerCase languages eps st)))
    - attempts (trace st)
    <= REPOS_PER_LANGUAGE * Z.of_nat (List.length languages).
Proof.
  induction languages as [|language languages IH]; intros eps st;
    cbn [forLanguages].
  - simpl. unfold REPOS_PER_LANGUAGE. lia.
  - pose proof (scanLanguage_quota language REPOS_PER_LANGUAGE
                  (hd offline_episode eps) st) as Hq.
    destruct (scanLanguage toLowerCase language REPOS_PER_LANGUAGE
                (hd offline_episode eps) st) as [[v|] st1];
      cbn [fst snd] in *; unfold REPOS_PER_LANGUAGE in *;
      cbn [List.length]; [|lia].
    specialize (IH (tl eps) (emit (Sleep (Some 5000)) st1)).
    simpl in IH. rewrite attempts_app in IH. simpl in IH.
    unfold REPOS_PER_LANGUAGE in IH. lia.
Qed.

(** X8: a language scan makes at most maxRepos enrichment attempts
    (none for a quota that is not positive), so one run of runScan makes
    at most 3000 of them and raises totalScanned by at most 3000. *)
Theorem run_stays_within_quota (language : jsstring) (maxRepos : Z)
  (ep : episode) (eps : list episode) (finished : Z) (st : sys) :
  attempts (trace (snd (scanLanguage toLowerCase language maxRepos ep st)))
  - attempts (trace st) <= Z.max 0 maxRepos
  /\ attempts (trace (snd (runScan toLowerCase eps finished st)))
     - attempts (trace st) <= 3000
  /\ Scanner.totalScanned
       (scanner (snd (runScan toLowerCase eps finished st)))
     - Scanner.totalScanned (scanner st) <= 3000.
Proof.
  split; [apply scanLanguage_quota|].
  assert (Hrun : attempts (trace (snd (runScan toLowerCase eps finished st)))
                 - attempts (trace st) <= 3000).
  { unfold runScan, runScan_enter.
    destruct (Scanner.isScanning (scanner st)); cbn [snd]; [lia|].
    unfold runScan_body.
    pose proof (forLanguages_quota SCAN_LANGUAGES eps
                  (set_isScanning true st)) as Hq.
    destruct (forLanguages toLowerCase SCAN_LANGUAGES eps
                (set_isScanning true st)) as [[v|] st'];
      cbn [snd] in Hq; simpl in Hq |- *;
      rewrite ?attempts_app; simpl; unfold REPOS_PER_LANGUAGE in Hq; lia. }
  split; [exact Hrun|].
  unfold runScan, runScan_enter in *.
  destruct (Scanner.isScanning (scanner st)); cbn [snd] in *; [lia|].
  destruct (runScan_body_advances toLowerCase eps finished
              (set_isScanning true st)) as (n & k & Ht & Ha & _).
  simpl in Ht, Ha. lia.
Qed.

(** What one turn of the event loop does to the counters. *)
Lemma step_counters (m : machine) (a : action) :
  exists n d,
    0 <= n
    /\ Scanner.totalScanned (scanner (state (step toLowerCase m a)))
       = Scanner.totalScanned (scanner (state m)) + n
    /\ trace (state (step toLowerCase m a)) = trace (state m) ++ d
    /\ attempts d = n
    /\ Z.of_nat (List.length (store_requests d)) <= n.
Proof.
  assert (Hnone : exists n d,
             0 <= n
             /\ Scanner.totalScanned (scanner (state m))
                = Scanner.totalScanned (scanner (state m)) + n
             /\ trace (state m) = trace (state m) ++ d
             /\ attempts d = n
             /\ Z.of_nat (List.length (store_requests d)) <= n).
  { exists 0, []. rewrite app_nil_r. simpl. repeat split; lia. }
  destruct a as [|i ep finished]; simpl.
  - unfold runScan_enter.
    destruct (Scanner.isScanning (scanner (state m))); simpl; exact Hnone.
  - destruct (pending m !! i) as [languages|]; [|exact Hnone].
    destruct languages as [|language languages]; simpl; [exact Hnone|].
    pose proof (scanLanguage_advances toLowerCase language REPOS_PER_LANGUAGE
                  ep (state m)) as (n & Hadv & _).
    pose proof (scanLanguage_frame toLowerCase any_table any_table_refl
                  any_table_trans any_table_save language REPOS_PER_LANGUAGE
                  ep (state m)) as (_ & _ & _ & _ & d & Hd & _ & Hstores).
    destruct Hadv as (Hn & _ & Ht & Ha & _).
    rewrite Hd, attempts_app in Ha.
    assert (Hdn : attempts d = n) by lia.
    destruct (scanLanguage toLowerCase language REPOS_PER_LANGUAGE ep
                (state m)) as [[v|] st1]; simpl in *.
    + exists n, (d ++ [Sleep (Some 5000)]).
      rewrite Hd, <- app_assoc, attempts_app, store_requests_app.
      simpl. rewrite app_nil_r. repeat split; lia.
    + exists n, (d ++ [ConsoleError ScanFailed]).
      rewrite Hd, <- app_assoc, attempts_app, store_requests_app.
      simpl. rewrite app_nil_r. repeat split; lia.
Qed.

Lemma run_counters (actions : list action) :
  forall (m : machine),
  exists n d,
    0 <= n
    /\ Scanner.totalScanned (scanner (state (run toLowerCase actions m)))
       = Scanner.totalScanned (scanner (state m)) + n
    /\ trace (state (run toLowerCase actions m)) = trace (state m) ++ d
    /\ attempts d = n
    /\ Z.of_nat (List.length (store_requests d)) <= n.
Proof.
  induction actions as [|a actions IH]; intros m; simpl.
  - exists 0, []. rewrite app_nil_r. simpl. repeat split; lia.
  - destruct (step_counters m a) as (n & d & Hn & Ht & Hd & Ha & Hs).
    destruct (IH (step toLowerCase m a))
      as (n' & d' & Hn' & Ht' & Hd' & Ha' & Hs').
    exists (n + n'), (d ++ d').
    rewrite Ht', Ht, Hd', Hd, <- app_assoc, attempts_app,
      store_requests_app, length_app.
    repeat split; lia.
Qed.

(** X9: totalScanned is a lifetime counter: over any calls and
    resumptions of runScan it never decreases and is never reset; counted
    from start-up it is the number of README requests issued so far, and
    the number of store calls never exceeds it. *)
Theorem totalScanned_counts_attempts (actions more : list action)
  (rows : list Project.t) :
  let m := run toLowerCase actions (boot rows) in
  Scanner.totalScanned (scanner (state m)) = attempts (trace (state m))
  /\ Z.of_nat (List.length (store_requests (trace (state m))))
     <= Scanner.totalScanned (scanner (state m))
  /\ Scanner.totalScanned (scanner (state m))
     <= Scanner.totalScanned (scanner (state (run toLowerCase more m))).
Proof.
  intros m.
  destruct (run_counters actions (boot rows))
    as (n & d & Hn & Ht & Hd & Ha & Hs).
  fold m in Ht, Hd. simpl in Ht, Hd.
  destruct (run_counters more m) as (n' & d' & Hn' & Ht' & _).
  rewrite Ht, Hd, Ht'. split; [lia|]. split; lia.
Qed.


End ScannerMore.

(** ** Project query and recommendations *)

Section QueryFacts.

Variable like : jsstring -> jsstring -> bool.
Variable order_by_utility_score_desc : list Project.t -> list Project.t.
Variable toLowerCase : jsstring -> jsstring.

(** The engine returns the selected rows, in some order. *)
Hypothesis order_permutes :
  forall rows, Permutation (order_by_utility_score_desc rows) rows.

Lemma sql_limit_In (n : Z) (rows : list Project.t) (r : Project.t) :
  In r (sql_limit n rows) -> In r rows.
Proof.
  unfold sql_limit. destruct (n <? 0); [trivial|].
  intros Hin. rewrite <- (take_drop (Z.to_nat n) rows).
  apply List.in_or_app. left. exact Hin.
Qed.

Lemma sql_limit_length (n : Z) (rows : list Project.t) :
  0 <= n -> Z.of_nat (List.length (sql_limit n rows)) <= n.
Proof.
  intros Hn. unfold sql_limit.
  destruct (Z.ltb_spec n 0); [lia|]. rewrite length_take. lia.
Qed.

Lemma sql_limit_all (n : Z) (rows : list Project.t) :
  Z.of_nat (List.length rows) <= n -> sql_limit n rows = rows.
Proof.
  intros Hn. unfold sql_limit.
  destruct (Z.ltb_spec n 0); [reflexivity|]. apply take_ge. lia.
Qed.

Lemma where_clause_filters (f : Filters.t) (r : Project.t) :
  where_clause f r = true ->
  (filter_set (Filters.language f) = true ->
   Project.language r = Filters.language f)
  /\ (filter_set (Filters.category f) = true ->
      Some (Project.category r) = Filters.category f).
Proof.
  unfold where_clause, sql_eq_text. rewrite andb_true_iff.
  intros [Hl Hc]. split; intros Hset.
  - rewrite Hset in Hl.
    destruct (Project.language r) as [a|], (Filters.language f) as [b|];
      try discriminate.
    apply str_eqb_eq in Hl. congruence.
  - rewrite Hset in Hc.
    destruct (Filters.category f) as [b|]; try discriminate.
    apply str_eqb_eq in Hc. congruence.
Qed.

(** X11: getProjects returns stored rows only, each with the requested
    language and the requested category when these filters are set; it
    returns at most [limit] rows, at most 50 when the limit is absent,
    NaN or 0; and without a text search it returns every matching row
    when their number is within the limit. *)
Theorem getProjects_selects_within_limit (q : Query.t) (rows : list Project.t) :
  let result :=
    getProjectsQuery like order_by_utility_score_desc q rows in
  (forall r, In r result ->
     In r rows
     /\ (filter_set (Query.language q) = true ->
         Project.language r = Query.language q)
     /\ (filter_set (Query.category q) = true ->
         Some (Project.category r) = Query.category q))
  /\ (0 <= effective_limit q ->
      Z.of_nat (List.length result) <= effective_limit q)
  /\ (Query.limit q = None \/ Query.limit q = Some 0 ->
      (List.length result <= 50)%nat)
  /\ (filter_set (Query.search q) = false ->
      let matching :=
        getProjects
          {| Filters.language := Query.language q;
             Filters.category := Query.category q |} rows in
      Z.of_nat (List.length matching) <= effective_limit q ->
      Permutation result matching).
Proof.
  intros result. subst result. unfold getProjectsQuery.
  split; [|split; [|split]].
  - intros r Hin. apply sql_limit_In in Hin.
    apply (Permutation_in _ (order_permutes _)) in Hin.
    apply List.filter_In in Hin as [Hin Hwhere].
    split; [exact Hin|].
    unfold where_query in Hwhere. apply andb_true_iff in Hwhere as [Hw _].
    apply (where_clause_filters _ _ Hw).
  - apply sql_limit_length.
  - intros Hlimit.
    assert (Heff : effective_limit q = 50).
    { unfold effective_limit. destruct Hlimit as [-> | ->]; reflexivity. }
    pose proof (sql_limit_length (effective_limit q)
                  (order_by_utility_score_desc
                     (List.filter (where_query like q) rows))) as Hlen.
    rewrite Heff in *. lia.
  - intros Hsearch. cbv zeta. intros Hlen.
    set (matching := getProjects _ rows) in *.
    assert (Hsame : List.filter (where_query like q) rows = matching).
    { unfold matching, getProjects. apply List.filter_ext. intros r.
      unfold where_query. rewrite Hsearch. apply andb_true_r. }
    rewrite Hsame. rewrite sql_limit_all; [apply order_permutes|].
    rewrite (Permutation_length (order_permutes matching)). exact Hlen.
Qed.

Lemma detectedLanguage_truthy (keywords lang : jsstring) :
  detectedLanguage keywords = Some lang -> truthy lang = true.
Proof.
  unfold detectedLanguage.
  repeat match goal with
         | |- context [if ?b then _ else _] => destruct b
         end; intros H; inversion H; reflexivity.
Qed.

Lemma detectedCategory_truthy (keywords c : jsstring) :
  detectedCategory keywords = Some c -> truthy c = true.
Proof.
  unfold detectedCategory.
  repeat match goal with
         | |- context [if ?b then _ else _] => destruct b
         end; intros H; inversion H; reflexivity.
Qed.

(** X12: getRecommendations returns at most 10 projects, all of them
    stored rows; when it detects a language every recommended project
    has that language, and when it detects a category every recommended
    project has that value in its category column. *)
Theorem recommendations_match_intent (userInput : jsstring)
  (rows : list Project.t) :
  let result :=
    getRecommendations like order_by_utility_score_desc toLowerCase
      userInput rows in
  (List.length (snd result) <= 10)%nat
  /\ forall r, In r (snd result) ->
       In r rows
       /\ (forall lang, fst (fst result) = Some lang ->
                        Project.language r = Some lang)
       /\ (forall c, snd (fst result) = Some c -> Project.category r = c).
Proof.
  intros result. subst result. unfold getRecommendations. cbn [fst snd].
  set (q := {| Query.language := detectedLanguage (toLowerCase userInput);
               Query.category := detectedCategory (toLowerCase userInput);
               Query.search := None; Query.limit := Some 10 |}).
  split.
  - pose proof (sql_limit_length (effective_limit q)
                  (order_by_utility_score_desc
                     (List.filter (where_query like q) rows))) as Hlen.
    unfold getProjectsQuery. change (effective_limit q) with 10 in *. lia.
  - intros r Hin. unfold getProjectsQuery in Hin.
    apply sql_limit_In in Hin.
    apply (Permutation_in _ (order_permutes _)) in Hin.
    apply List.filter_In in Hin as [Hin Hwhere].
    split; [exact Hin|].
    unfold where_query in Hwhere. apply andb_true_iff in Hwhere as [Hw _].
    destruct (where_clause_filters _ _ Hw) as [Hlang Hcat].
    cbn [Filters.language Filters.category Query.language Query.category q]
      in Hlang, Hcat.
    split.
    + intros lang Hdet. rewrite Hdet in Hlang. apply Hlang.
      cbn [filter_set]. eapply detectedLanguage_truthy, Hdet.
    + intros c Hdet. rewrite Hdet in Hcat.
      assert (Hsome : Some (Project.category r) = Some c).
      { apply Hcat. cbn [filter_set]. eapply detectedCategory_truthy, Hdet. }
      congruence.
Qed.

End QueryFacts.

Section IntentFacts.

(** X13: the intent of a request is read off two priority lists. The
    language is the first of JavaScript (javascript, js), Python
    (python), Java (java), TypeScript (typescript, ts), Go (go) with a
    term in the lower-cased request, so a request that contains js is
    taken for JavaScript whatever else it names; the test that javascript
    is absent in the Java branch and the terms golang and
    authentification never change the outcome. The category is the first
    of authentication (auth), api (api, rest), database (database, db),
    ui (ui, interface). *)
Theorem intent_priorities (keywords : jsstring) :
  detectedLanguage keywords = first_group keywords language_groups
  /\ detectedCategory keywords = first_group keywords intent_category_groups
  /\ (includes keywords (lit "js") = true ->
      detectedLanguage keywords = Some (lit "JavaScript"))
  /\ (includes keywords (lit "auth") = true ->
      detectedCategory keywords = Some (lit "authentication")).
Proof.
  assert (Hlang : detectedLanguage keywords
                  = first_group keywords language_groups).
  { unfold detectedLanguage, language_groups, first_group, group_matches,
      existsb.
    rewrite !orb_false_r.
    rewrite (includes_longer keywords (lit "golang") (lit "go") eq_refl).
    destruct (includes keywords (lit "javascript")); [reflexivity|].
    cbn [orb negb]. rewrite andb_true_r. reflexivity. }
  assert (Hcat : detectedCategory keywords
                 = first_group keywords intent_category_groups).
  { unfold detectedCategory, intent_category_groups, first_group,
      group_matches, existsb.
    rewrite !orb_false_r.
    rewrite (includes_longer keywords (lit "authentification") (lit "auth")
               eq_refl).
    reflexivity. }
  split; [exact Hlang|]. split; [exact Hcat|]. split.
  - intros Hjs. unfold detectedLanguage. rewrite Hjs, orb_true_r.
    reflexivity.
  - intros Hauth. unfold detectedCategory. rewrite Hauth. reflexivity.
Qed.

End IntentFacts.

(** ** Users *)

Section UsersFacts.

Lemma email_used_In (email : jsstring) (users : list User.t) :
  email_used email users = true <-> In email (List.map User.email users).
Proof.
  unfold email_used. induction users as [|u users IH]; simpl;
    [split; [discriminate|tauto]|].
  rewrite orb_true_iff, IH, str_eqb_eq. tauto.
Qed.

Lemma username_used_In (username : jsstring) (users : list User.t) :
  username_used username users = true
  <-> In username (List.map User.username users).
Proof.
  unfold username_used. induction users as [|u users IH]; simpl;
    [split; [discriminate|tauto]|].
  rewrite orb_true_iff, IH, str_eqb_eq. tauto.
Qed.

Lemma email_unused_filter (email : jsstring) (users : list User.t) :
  email_used email users = false ->
  List.filter (fun u => str_eqb (User.email u) email) users = [].
Proof.
  unfold email_used. induction users as [|u users IH]; simpl;
    [reflexivity|].
  destruct (str_eqb (User.email u) email); simpl; [discriminate|exact IH].
Qed.

Lemma NoDup_snoc_fresh {A : Type} (l : list A) (x : A) :
  NoDup l -> ~ In x l -> NoDup (l ++ [x]).
Proof.
  intros Hnd Hnot. apply NoDup_app. split; [exact Hnd|]. split.
  - intros y Hy Hin. apply list_elem_of_In in Hy, Hin.
    destruct Hin as [<-|[]]. contradiction.
  - apply NoDup_singleton.
Qed.

Lemma filter_id_unique (users : list User.t) (u : User.t) :
  NoDup (List.map User.id users) ->
  In u users ->
  List.filter (fun x => User.id x =? User.id u) users = [u].
Proof.
  induction users as [|x users IH]; simpl; intros Hnd Hin; [contradiction|].
  apply NoDup_cons in Hnd as [Hnot Hnd].
  destruct Hin as [->|Hin].
  - rewrite Z.eqb_refl. f_equal.
    clear IH Hnd. induction users as [|y users IH]; simpl; [reflexivity|].
    destruct (Z.eqb_spec (User.id y) (User.id u)) as [Heq|Hne].
    + exfalso. apply Hnot. rewrite <- Heq. simpl. left.
    + apply IH. intros Hin. apply Hnot. simpl. right. exact Hin.
  - destruct (Z.eqb_spec (User.id x) (User.id u)) as [Heq|Hne].
    + exfalso. apply Hnot. rewrite Heq.
      apply list_elem_of_In, List.in_map, Hin.
    + apply IH; assumption.
Qed.

End UsersFacts.

Section AuthFacts.

Variable bcrypt_hash : jsstring -> jsstring -> jsstring.
Variable bcrypt_compare : jsstring -> jsstring -> bool.
Variable jwt_sign : Payload.t -> Z -> jsstring.
Variable jwt_verify : jsstring -> Z -> option Payload.t.

(** X14: signup keeps the ids, the emails and the user names of table
    users unique, provided the store assigns an unused row id. When the
    email or the user name is taken it answers with the failure message
    and adds nothing; when the store fails otherwise the call fails and
    adds nothing; it succeeds only for an unused email and user name, and
    then the new row is the last of the table, with the password stored
    as its hash. *)
Theorem signup_keeps_users_unique (salt : jsstring) (reply : insert_reply)
  (jwt_now : Z) (email username password : jsstring) (users : list User.t) :
  users_ok users ->
  (forall rowid now, reply = Inserted rowid now ->
                     ~ In rowid (List.map User.id users)) ->
  let r :=
    signup bcrypt_hash jwt_sign salt reply jwt_now email username password
      users in
  users_ok (snd r)
  /\ (email_used email users = true \/ username_used username users = true ->
      reply <> InsertError ->
      fst r = Fulfilled (AuthFailure EmailOrUsernameUsed) /\ snd r = users)
  /\ (reply = InsertError -> fst r = Failed /\ snd r = users)
  /\ (forall user token,
        fst r = Fulfilled (AuthSuccess user token) ->
        email_used email users = false
        /\ username_used username users = false
        /\ Payload.email user = email
        /\ Payload.username user = username
        /\ exists now,
             snd r
             = users
               ++ [ {| User.id := Payload.userId user; User.email := email;
                       User.username := username;
                       User.password := bcrypt_hash password salt;
                       User.created_at := now |} ]).
Proof.
  intros (Hid & Hemail & Hname) Hfresh r. subst r. unfold signup.
  destruct reply as [rowid now|]; cbn [fst snd].
  - destruct (email_used email users) eqn:He; cbn [orb].
    + cbn [fst snd]. split; [repeat split; assumption|].
      split; [auto|]. split; [discriminate|]. intros user token H.
      discriminate.
    + destruct (username_used username users) eqn:Hu; cbn [fst snd].
      * split; [repeat split; assumption|].
        split; [auto|]. split; [discriminate|]. intros user token H.
        discriminate.
      * split.
        { unfold users_ok. rewrite !List.map_app. cbn [List.map].
          cbn [User.id User.email User.username].
          split; [|split]; apply NoDup_snoc_fresh; try assumption.
          - apply (Hfresh rowid now eq_refl).
          - intros Hin. apply email_used_In in Hin. congruence.
          - intros Hin. apply username_used_In in Hin. congruence. }
        split; [intros [H|H]; discriminate|].
        split; [discriminate|].
        intros user token H. injection H as <- _. cbn.
        repeat split. exists now. reflexivity.
  - split; [repeat split; assumption|].
    split; [intros _ H; contradiction|]. split; [auto|].
    intros user token H. discriminate.
Qed.

(** X15: after a successful signup, login with the same email and
    password succeeds and names the same user (id, email, user name),
    given that bcrypt accepts the password against its own hash; a
    password that bcrypt rejects and an email that is not registered get
    the same failure message. *)
Theorem signup_then_login (salt : jsstring) (rowid now t1 t2 : Z)
  (email username password : jsstring) (users : list User.t) :
  email_used email users = false ->
  username_used username users = false ->
  bcrypt_compare password (bcrypt_hash password salt) = true ->
  let r :=
    signup bcrypt_hash jwt_sign salt (Inserted rowid now) t1 email username
      password users in
  let user :=
    {| Payload.userId := rowid; Payload.email := email;
       Payload.username := username |} in
  fst r = Fulfilled (AuthSuccess user (jwt_sign user t1))
  /\ login bcrypt_compare jwt_sign true t2 email password (snd r)
     = Fulfilled (AuthSuccess user (jwt_sign user t2))
  /\ (forall other,
        bcrypt_compare other (bcrypt_hash password salt) = false ->
        login bcrypt_compare jwt_sign true t2 email other (snd r)
        = Fulfilled (AuthFailure WrongEmailOrPassword))
  /\ (forall unknown other,
        email_used unknown (snd r) = false ->
        login bcrypt_compare jwt_sign true t2 unknown other (snd r)
        = Fulfilled (AuthFailure WrongEmailOrPassword)).
Proof.
  intros He Hu Hbcrypt r user. subst r user. unfold signup.
  rewrite He, Hu. cbn [orb fst snd].
  split; [reflexivity|].
  assert (Hsel : forall pw,
             login bcrypt_compare jwt_sign true t2 email pw
               (users
                ++ [ {| User.id := rowid; User.email := email;
                        User.username := username;
                        User.password := bcrypt_hash password salt;
                        User.created_at := now |} ])
             = if bcrypt_compare pw (bcrypt_hash password salt)
               then Fulfilled
                      (AuthSuccess
                         {| Payload.userId := rowid; Payload.email := email;
                            Payload.username := username |}
                         (jwt_sign
                            {| Payload.userId := rowid;
                               Payload.email := email;
                               Payload.username := username |} t2))
               else Fulfilled (AuthFailure WrongEmailOrPassword)).
  { intros pw. unfold login.
    rewrite List.filter_app, (email_unused_filter email users He).
    cbn [List.filter app User.email].
    rewrite (proj2 (str_eqb_eq email email) eq_refl). reflexivity. }
  split; [rewrite Hsel, Hbcrypt; reflexivity|].
  split; [intros other Hother; rewrite Hsel, Hother; reflexivity|].
  intros unknown other Hunknown. unfold login.
  rewrite (email_unused_filter unknown _ Hunknown). reflexivity.
Qed.

(** X16: the token of a successful login opens the profile of the same
    user: when jwt accepts the token with its payload, getProfile returns
    the id, email and user name that login returned. With the users
    store down getProfile answers invalid token even for that token, as
    it does for a token that jwt rejects. *)
Theorem login_token_opens_profile (t1 t2 : Z) (email password : jsstring)
  (users : list User.t) (user : Payload.t) (token : jsstring) :
  users_ok users ->
  login bcrypt_compare jwt_sign true t1 email password users
  = Fulfilled (AuthSuccess user token) ->
  jwt_verify token t2 = Some user ->
  (exists created,
     getProfile jwt_verify true t2 token users
     = ProfileSuccess
         {| Profile.id := Payload.userId user;
            Profile.email := Payload.email user;
            Profile.username := Payload.username user;
            Profile.created_at := created |})
  /\ Payload.email user = email
  /\ getProfile jwt_verify false t2 token users = ProfileFailure InvalidToken
  /\ (forall bad store_up,
        jwt_verify bad t2 = None ->
        getProfile jwt_verify store_up t2 bad users
        = ProfileFailure InvalidToken).
Proof.
  intros (Hid & _ & _) Hlogin Hverify. unfold login in Hlogin.
  destruct (List.filter (fun u => str_eqb (User.email u) email) users)
    as [|u rest] eqn:Hfilter; [discriminate|].
  assert (Hin : In u (List.filter
                        (fun u => str_eqb (User.email u) email) users))
    by (rewrite Hfilter; left; reflexivity).
  apply List.filter_In in Hin as [Hin Hmail]. apply str_eqb_eq in Hmail.
  destruct (bcrypt_compare password (User.password u)); [|discriminate].
  injection Hlogin as <- <-. cbn [Payload.userId Payload.email
    Payload.username] in *.
  split; [|split; [exact Hmail|split]].
  - exists (User.created_at u). unfold getProfile. rewrite Hverify.
    cbn [Payload.userId]. rewrite (filter_id_unique users u Hid Hin).
    reflexivity.
  - unfold getProfile. rewrite Hverify. reflexivity.
  - intros bad store_up Hbad. unfold getProfile. rewrite Hbad. reflexivity.
Qed.

End AuthFacts.

(** ** Scanner: single items and pages *)

Section ItemFacts.

Variable toLowerCase : jsstring -> jsstring.

Lemma search_requests_app (a b : list event) :
  search_requests (a ++ b) = search_requests a ++ search_requests b.
Proof.
  induction a as [|e a IH]; simpl; [reflexivity|].
  destruct e; rewrite ?IH; reflexivity.
Qed.



(** X18: a save that the store rejects is logged and goes no further:
    processRepo leaves the table and the scanner as they were, and the
    item loop counts the repository and goes on with the next one. *)
Theorem store_failure_is_swallowed (w : item_world) (repo : Repo.t)
  (st : sys) (content : jsstring) :
  fetchReadme (readme w) = Some content ->
  truthy content = true ->
  store w = Rejects ->
  let st' := processRepo toLowerCase w repo st in
  projects st' = projects st
  /\ scanner st' = scanner st
  /\ trace st'
     = trace st
       ++ [ReadmeRequest (Repo.full_name repo);
           StoreRequest (projectData toLowerCase repo content);
           ConsoleError SavingProject]
  /\ (forall tk maxRepos items sc,
        item tk (Repo.full_name repo) = w ->
        sc < maxRepos ->
        forItems toLowerCase tk maxRepos (repo :: items) sc st
        = forItems toLowerCase tk maxRepos items (sc + 1)
            (emit (Sleep (Some 500)) (incr_totalScanned st'))).
Proof.
  intros Hfetch Htruthy Hstore st'.
  assert (Hst : st' = emit (ConsoleError SavingProject)
                        (emit (StoreRequest
                                 (projectData toLowerCase repo content))
                           (emit (ReadmeRequest (Repo.full_name repo)) st))).
  { unfold st', processRepo. rewrite Hfetch, Htruthy, Hstore. reflexivity. }
  split; [rewrite Hst; reflexivity|]. split; [rewrite Hst; reflexivity|].
  split; [rewrite Hst; simpl; rewrite <- !app_assoc; reflexivity|].
  intros tk maxRepos items sc Hw Hlt. cbn [forItems].
  apply Z.leb_gt in Hlt. rewrite Hlt, Hw. reflexivity.
Qed.

Lemma processRepo_no_search (w : item_world) (repo : Repo.t) (st : sys) :
  search_requests (trace (processRepo toLowerCase w repo st))
  = search_requests (trace st).
Proof.
  unfold processRepo.
  destruct (fetchReadme (readme w)) as [content|]; simpl;
    [|rewrite search_requests_app; simpl; apply app_nil_r].
  destruct (truthy content); simpl;
    [|rewrite search_requests_app; simpl; apply app_nil_r].
  destruct (store w); simpl; rewrite !search_requests_app; simpl;
    rewrite !app_nil_r; reflexivity.
Qed.

Lemma forItems_no_search (tk : tick) (maxRepos : Z) (items : list Repo.t) :
  forall (sc : Z) (st : sys),
    search_requests (trace (snd (forItems toLowerCase tk maxRepos items sc st)))
    = search_requests (trace st).
Proof.
  induction items as [|repo items IH]; intros sc st; simpl; [reflexivity|].
  destruct (maxRepos <=? sc); simpl; [reflexivity|].
  rewrite IH. simpl. rewrite search_requests_app. simpl.
  rewrite app_nil_r. apply processRepo_no_search.
Qed.

(** One turn sends one request, for the current page, and leaves the
    page number as it is or advances it by one. *)
Lemma iteration_pages (language : jsstring) (maxRepos : Z) (tk : tick)
  (l : locals) (st : sys) :
  let r := iteration toLowerCase language maxRepos tk l st in
  search_requests (trace (snd r))
  = search_requests (trace st) ++ [(language, 100, page l)]
  /\ (page (snd (fst r)) = page l \/ page (snd (fst r)) = page l + 1).
Proof.
  intros r. subst r. unfold iteration.
  destruct (reply tk) as [|response]; cbn [fst snd].
  - simpl. rewrite !search_requests_app. simpl. rewrite app_nil_r. auto.
  - destruct (Response.ok response); cbn [negb].
    + destruct (Response.items response) as [[[|repo items]|]|];
        cbn -[forItems];
        try (rewrite !search_requests_app; simpl; rewrite ?app_nil_r; auto).
      pose proof (forItems_no_search tk maxRepos (repo :: items)
                    (scannedCount l)
                    (emit (SearchRequest language perPage (page l)) st)) as H.
      destruct (forItems toLowerCase tk maxRepos (repo :: items)
                  (scannedCount l)
                  (emit (SearchRequest language perPage (page l)) st))
        as [sc st'].
      cbn [fst snd page] in *. rewrite H. simpl.
      rewrite search_requests_app. simpl. auto.
    + destruct (Response.status response =? 403); cbn [fst snd]; simpl;
        rewrite !search_requests_app; simpl; rewrite ?app_nil_r; auto.
Qed.

Lemma whileLoop_pages (language : jsstring) (maxRepos : Z)
  (ticks : list tick) :
  forall (l : locals) (st : sys),
  exists requests,
    search_requests
      (trace (snd (whileLoop toLowerCase language maxRepos ticks l st)))
    = search_requests (trace st) ++ requests
    /\ pages_from language (page l) requests
    /\ (scannedCount l < maxRepos -> requests <> [])
    /\ (maxRepos <= scannedCount l -> requests = []).
Proof.
  assert (Hstop : forall (l : locals) (st : sys),
             maxRepos <= scannedCount l ->
             exists requests,
               search_requests (trace (snd (l, st)))
               = search_requests (trace st) ++ requests
               /\ pages_from language (page l) requests
               /\ (scannedCount l < maxRepos -> requests <> [])
               /\ (maxRepos <= scannedCount l -> requests = [])).
  { intros l st Hge. exists []. rewrite app_nil_r.
    split; [reflexivity|]. split; [exact I|].
    split; [intros Hlt; exfalso; lia|reflexivity]. }
  induction ticks as [|tk ticks IH]; intros l st; cbn [whileLoop];
    destruct (Z.ltb_spec (scannedCount l) maxRepos) as [Hlt|Hge];
    try (apply Hstop; exact Hge).
  - destruct (iteration_pages language maxRepos offline l st) as [Hreq _].
    destruct (iteration toLowerCase language maxRepos offline l st)
      as [[sig l'] st']. cbn [fst snd] in *.
    exists [(language, 100, page l)]. split; [exact Hreq|].
    split; [simpl; auto|]. split; [discriminate|lia].
  - destruct (iteration_pages language maxRepos tk l st) as [Hreq Hpage].
    destruct (iteration toLowerCase language maxRepos tk l st)
      as [[sig l'] st']. cbn [fst snd] in *.
    destruct sig.
    + destruct (IH l' st') as (requests & Hrest & Hfrom & _).
      exists ((language, 100, page l) :: requests).
      rewrite Hrest, Hreq, <- app_assoc. split; [reflexivity|].
      split; [|split; [discriminate|lia]].
      simpl. repeat split; try reflexivity.
      destruct Hpage as [Hp|Hp]; rewrite Hp in Hfrom; auto.
    + exists [(language, 100, page l)]. split; [exact Hreq|].
      split; [simpl; auto|]. split; [discriminate|lia].
Qed.

(** X19: the search requests of a language scan all name that language
    and a page size of 100; their page numbers start at 1 and each
    request asks for the page of the request before or for the next
    one, so no page is skipped. A scan with a positive quota sends at
    least one request, a scan without one sends none. *)
Theorem pages_requested_in_order (language : jsstring) (maxRepos : Z)
  (ep : episode) (st : sys) :
  exists requests,
    search_requests
      (trace (snd (scanLanguage toLowerCase language maxRepos ep st)))
    = search_requests (trace st) ++ requests
    /\ pages_from language 1 requests
    /\ (0 < maxRepos -> requests <> [])
    /\ (maxRepos <= 0 -> requests = []).
Proof.
  unfold scanLanguage.
  destruct (whileLoop_pages language maxRepos (ticks ep)
              {| scannedCount := 0; page := 1 |} st)
    as (requests & Hreq & Hfrom & Hsome & Hnone).
  destruct (whileLoop toLowerCase language maxRepos (ticks ep)
              {| scannedCount := 0; page := 1 |} st) as [l st'].
  cbn [fst snd scannedCount page] in *.
  exists requests.
  destruct (escapes ep); cbn [snd]; simpl;
    rewrite ?search_requests_app; simpl; rewrite ?app_nil_r; auto.
Qed.

End ItemFacts.

(** ** Scheduler *)

Section SchedulerFacts.

Variable toLowerCase : jsstring -> jsstring.

Lemma occur_flag (rt : runtime) (o : occurrence) :
  List.length (activations rt)
  = (if Scanner.isScanning (scanner (core rt)) then 1 else 0)%nat ->
  List.length (activations (occur toLowerCase rt o))
  = (if Scanner.isScanning (scanner (core (occur toLowerCase rt o)))
     then 1 else 0)%nat.
Proof.
  intros Hinv. destruct o as [|hours now handle|handle now|i ep finished now|];
    cbn [occur].
  - unfold startInitialScan, runScan_enter.
    destruct (Scanner.isScanning (scanner (core rt))) eqn:Hflag; simpl;
      [rewrite Hflag; exact Hinv|].
    rewrite length_app, Hinv. reflexivity.
  - simpl. exact Hinv.
  - destruct (timer_interval handle (timers rt)) as [intervalMs|];
      [|exact Hinv].
    unfold timerCallback, runScan_enter.
    destruct (Scanner.isScanning (scanner (core rt))) eqn:Hflag; simpl;
      [rewrite Hflag; exact Hinv|].
    rewrite length_app, Hinv. reflexivity.
  - destruct (activations rt !! i) as [a|] eqn:Hi; [|exact Hinv].
    assert (Hlen : (i < List.length (activations rt))%nat)
      by (eapply lookup_lt_Some; exact Hi).
    destruct (Scanner.isScanning (scanner (core rt))) eqn:Hflag;
      [|rewrite Hinv in Hlen; lia].
    assert (Hi0 : i = 0%nat) by lia. subst i.
    destruct (activations rt) as [|x [|y rest]]; simpl in Hinv; try lia.
    simpl in Hi. injection Hi as ->.
    destruct (languages_left a) as [|language languages]; simpl.
    + destruct (reschedule a); reflexivity.
    + pose proof (scanLanguage_advances toLowerCase language
                    REPOS_PER_LANGUAGE ep (core rt)) as (n & Hadv & _).
      destruct (scanLanguage toLowerCase language REPOS_PER_LANGUAGE ep
                  (core rt)) as [[v|] st1]; simpl.
      * destruct Hadv as (_ & Hf & _). simpl in Hf. rewrite Hf, Hflag.
        reflexivity.
      * destruct (reschedule a); reflexivity.
  - unfold stop.
    destruct (Scanner.scanInterval (scanner (core rt))); exact Hinv.
Qed.

Lemma occurs_flag (os : list occurrence) :
  forall (rt : runtime),
    List.length (activations rt)
    = (if Scanner.isScanning (scanner (core rt)) then 1 else 0)%nat ->
    List.length (activations (occurs toLowerCase os rt))
    = (if Scanner.isScanning (scanner (core (occurs toLowerCase os rt)))
       then 1 else 0)%nat.
Proof.
  induction os as [|o os IH]; intros rt Hinv; simpl; [exact Hinv|].
  apply IH, occur_flag, Hinv.
Qed.

(** X20: with the start-up scan, the interval timer and stop in play, at
    most one activation of runScan is in flight, exactly when isScanning
    is set. A timer that fires during a scan starts no second scan and
    touches neither the table nor the trace; it only moves nextScanTime
    to one interval after the firing. A start-up scan requested during a
    scan changes nothing. *)
Theorem scheduled_scans_never_overlap (os : list occurrence)
  (rows : list Project.t) (handle now intervalMs : Z) :
  let rt := occurs toLowerCase os (started rows) in
  let rt' := occur toLowerCase rt (TimerFires handle now) in
  (List.length (activations rt) <= 1)%nat
  /\ (Scanner.isScanning (scanner (core rt)) = true
      <-> List.length (activations rt) = 1%nat)
  /\ (Scanner.isScanning (scanner (core rt)) = true ->
      timer_interval handle (timers rt) = Some intervalMs ->
      activations rt' = activations rt
      /\ timers rt' = timers rt
      /\ projects (core rt') = projects (core rt)
      /\ trace (core rt') = trace (core rt)
      /\ Scanner.isScanning (scanner (core rt')) = true
      /\ Scanner.nextScanTime (scanner (core rt')) = Some (now + intervalMs))
  /\ (Scanner.isScanning (scanner (core rt)) = true ->
      occur toLowerCase rt StartInitialScan = rt).
Proof.
  intros rt rt'.
  pose proof (occurs_flag os (started rows) eq_refl) as Hinv.
  fold rt in Hinv. rewrite Hinv.
  destruct (Scanner.isScanning (scanner (core rt))) eqn:Hflag.
  - split; [lia|]. split; [tauto|]. split.
    + intros _ Htimer. unfold rt'. cbn [occur]. rewrite Htimer.
      unfold timerCallback, runScan_enter. rewrite Hflag. simpl.
      rewrite Hflag. repeat split; reflexivity.
    + intros _. cbn [occur]. unfold startInitialScan, runScan_enter.
      rewrite Hflag. reflexivity.
  - split; [lia|]. split; [split; [discriminate|lia]|].
    split; discriminate.
Qed.

Lemma timer_interval_cleared (handle : Z) (timers : list (Z * Z)) :
  timer_interval handle
    (List.filter (fun t => negb (fst t =? handle)) timers) = None.
Proof.
  unfold timer_interval.
  induction timers as [|[h iv] timers IH]; simpl; [reflexivity|].
  destruct (Z.eqb_spec h handle) as [Heq|Hne]; simpl; [exact IH|].
  destruct (Z.eqb_spec h handle); [contradiction|]. exact IH.
Qed.

Lemma timer_interval_kept (handle other : Z) (timers : list (Z * Z)) :
  other <> handle ->
  timer_interval other
    (List.filter (fun t => negb (fst t =? handle)) timers)
  = timer_interval other timers.
Proof.
  intros Hne. unfold timer_interval.
  induction timers as [|[h iv] timers IH]; simpl; [reflexivity|].
  destruct (Z.eqb_spec h handle) as [Heq|Hd]; simpl.
  - destruct (Z.eqb_spec h other); [congruence|]. exact IH.
  - destruct (Z.eqb_spec h other); [reflexivity|]. exact IH.
Qed.

(** X21: stop clears the timer whose handle the scanner holds and
    nothing else: that timer no longer fires, the scanner fields
    (isScanning and nextScanTime among them), the table and a scan in
    flight are untouched, and the scan goes on exactly as it would have.
    Timers with another handle stay armed. *)
Theorem stop_clears_only_its_timer (rt : runtime) (handle : Z) :
  Scanner.scanInterval (scanner (core rt)) = Some handle ->
  let rt' := stop rt in
  core rt' = core rt
  /\ activations rt' = activations rt
  /\ (forall now, occur toLowerCase rt' (TimerFires handle now) = rt')
  /\ (forall i ep finished now,
        core (occur toLowerCase rt' (Continues i ep finished now))
        = core (occur toLowerCase rt (Continues i ep finished now))
        /\ activations (occur toLowerCase rt' (Continues i ep finished now))
           = activations (occur toLowerCase rt (Continues i ep finished now)))
  /\ (forall other, other <> handle ->
        timer_interval other (timers rt') = timer_interval other (timers rt)).
Proof.
  intros Hhandle rt'. unfold rt', stop. rewrite Hhandle. cbn [core activations
    timers].
  split; [reflexivity|]. split; [reflexivity|]. split; [|split].
  - intros now. cbn [occur timers]. rewrite timer_interval_cleared.
    reflexivity.
  - intros i ep finished now. cbn [occur activations core].
    destruct (activations rt !! i) as [a|]; [|split; reflexivity].
    destruct (resume toLowerCase (languages_left a) ep finished (core rt))
      as [st [languages'|]]; split; reflexivity.
  - intros other Hne. apply timer_interval_kept, Hne.
Qed.

(** X22: a second call of schedulePeriodicScan arms a second timer and
    replaces the handle the scanner holds, so stop then clears the second
    timer only: the first one stays armed with its interval and keeps
    calling runScan. *)
Theorem second_schedule_orphans_first_timer (rt : runtime)
  (hours1 now1 first hours2 now2 second : Z) :
  first <> second ->
  timer_interval first (timers rt) = None ->
  let twice :=
    schedulePeriodicScan hours2 now2 second
      (schedulePeriodicScan hours1 now1 first rt) in
  Scanner.scanInterval (scanner (core twice)) = Some second
  /\ timer_interval first (timers (stop twice))
     = Some (hours1 * 60 * 60 * 1000)
  /\ timer_interval second (timers (stop twice)) = None
  /\ (forall now,
        Scanner.isScanning (scanner (core rt)) = false ->
        List.length
          (activations
             (occur toLowerCase (stop twice) (TimerFires first now)))
        = S (List.length (activations rt))).
Proof.
  intros Hne Hnone twice.
  assert (Hfirst : timer_interval first (timers (stop twice))
                   = Some (hours1 * 60 * 60 * 1000)).
  { unfold twice, stop.
    cbn [schedulePeriodicScan core set_scanInterval scanner
         Scanner.scanInterval timers].
    rewrite timer_interval_kept by exact Hne.
    unfold timer_interval in *. rewrite <- app_assoc.
    induction (timers rt) as [|[h iv] ts IH]; simpl.
    - rewrite Z.eqb_refl. reflexivity.
    - simpl in Hnone. destruct (h =? first); [discriminate|].
      apply IH, Hnone. }
  split; [reflexivity|]. split; [exact Hfirst|]. split.
  - unfold twice, stop.
    cbn [schedulePeriodicScan core set_scanInterval scanner
         Scanner.scanInterval timers].
    apply timer_interval_cleared.
  - intros now Hidle. cbn [occur]. rewrite Hfirst.
    unfold timerCallback, runScan_enter, twice, stop.
    cbn [schedulePeriodicScan core set_scanInterval set_nextScanTime scanner
         Scanner.scanInterval Scanner.isScanning activations].
    rewrite Hidle. cbn [activations]. rewrite length_app. simpl. lia.
Qed.

End SchedulerFacts.

(** ** The further properties at concrete inputs *)

Section MoreWitnesses.

Import Sample.

Lemma insert_by_score_permutes (r : Project.t) (rows : list Project.t) :
  Permutation (Toy.insert_by_score r rows) (r :: rows).
Proof.
  induction rows as [|x rows IH]; simpl; [reflexivity|].
  destruct (PrimFloat.leb (Project.utility_score x) (Project.utility_score r));
    [reflexivity|].
  rewrite IH. apply Permutation_swap.
Qed.

Lemma order_by_score_permutes (rows : list Project.t) :
  Permutation (Toy.order_by_score rows) rows.
Proof.
  induction rows as [|r rows IH]; simpl; [reflexivity|].
  rewrite insert_by_score_permutes, IH. reflexivity.
Qed.

Lemma score_monotone_in_stars_witness :
  Repo.stargazers_count (repo 2 50) <= Repo.stargazers_count (repo 1 1500)
  /\ PrimFloat.leb
       (calculateUtilityScore (repo 2 50) auth_api_doc
          (analyzeRepo asciiToLowerCase (repo 2 50) auth_api_doc))
       (calculateUtilityScore (repo 1 1500) auth_api_doc
          (analyzeRepo asciiToLowerCase (repo 1 1500) auth_api_doc))
     = true.
Proof.
  assert (Hle : Repo.stargazers_count (repo 2 50)
                <= Repo.stargazers_count (repo 1 1500)) by (simpl; lia).
  split; [exact Hle|].
  exact (score_monotone_in_stars asciiToLowerCase (repo 2 50) (repo 1 1500)
           auth_api_doc Hle).
Defined.


Lemma scanner_keeps_rows_witness :
  unique_ids (projects (state (boot first_scan_rows)))
  /\ unique_ids
       (projects
          (state (run asciiToLowerCase [Call; Resume 0 go_episode 9]
                    (boot first_scan_rows))))
  /\ unique_ids
       (projects
          (snd (runScan asciiToLowerCase [go_episode] 9
                  (state (boot first_scan_rows))))).
Proof.
  assert (Hu : unique_ids (projects (state (boot first_scan_rows)))).
  { apply NoDup_cons. split; [intros Hin; inversion Hin|constructor]. }
  split; [exact Hu|].
  destruct (scanner_keeps_rows asciiToLowerCase [Call; Resume 0 go_episode 9]
              (boot first_scan_rows) [go_episode] 9 Hu)
    as ((H1 & _) & (H2 & _)).
  split; [exact H1|exact H2].
Defined.

Lemma scanner_rows_within_bounds_witness :
  Forall stored_ok (projects (state (boot [])))
  /\ Forall stored_ok
       (projects
          (state (run asciiToLowerCase [Call; Resume 0 go_episode 9]
                    (boot [])))).
Proof.
  assert (Hok : Forall stored_ok (projects (state (boot []))))
    by constructor.
  split; [exact Hok|].
  exact (proj1 (scanner_rows_within_bounds asciiToLowerCase
                  [Call; Resume 0 go_episode 9] (boot []) [] 9 Hok)).
Defined.

Lemma getProjects_selects_within_limit_witness :
  (forall rows, Permutation (Toy.order_by_score rows) rows)
  /\ (List.length
        (getProjectsQuery Toy.like Toy.order_by_score
           {| Query.language := Some (lit "Go"); Query.category := None;
              Query.search := None; Query.limit := None |}
           first_scan_rows) <= 50)%nat.
Proof.
  split; [exact order_by_score_permutes|].
  destruct (getProjects_selects_within_limit Toy.like Toy.order_by_score
              order_by_score_permutes
              {| Query.language := Some (lit "Go"); Query.category := None;
                 Query.search := None; Query.limit := None |}
              first_scan_rows) as (_ & _ & Hdefault & _).
  apply Hdefault. left. reflexivity.
Defined.

Lemma recommendations_match_intent_witness :
  (forall rows, Permutation (Toy.order_by_score rows) rows)
  /\ (List.length
        (snd (getRecommendations Toy.like Toy.order_by_score
                asciiToLowerCase (lit "a REST api in Go") first_scan_rows))
      <= 10)%nat.
Proof.
  split; [exact order_by_score_permutes|].
  exact (proj1 (recommendations_match_intent Toy.like Toy.order_by_score
                  asciiToLowerCase order_by_score_permutes
                  (lit "a REST api in Go") first_scan_rows)).
Defined.

Lemma signup_keeps_users_unique_witness :
  users_ok Toy.ada
  /\ (forall rowid now, Inserted 2 5 = Inserted rowid now ->
                        ~ In rowid (List.map User.id Toy.ada))
  /\ users_ok
       (snd (signup Toy.hash Toy.sign (lit "s2") (Inserted 2 5) 6
               (lit "bob@x.org") (lit "bob") (lit "pw2") Toy.ada)).
Proof.
  assert (Hok : users_ok Toy.ada).
  { repeat split; (apply NoDup_cons; split;
                   [intros Hin; inversion Hin|constructor]). }
  assert (Hfresh : forall rowid now, Inserted 2 5 = Inserted rowid now ->
                                     ~ In rowid (List.map User.id Toy.ada)).
  { intros rowid now H. injection H as <- _. simpl. intros [H|[]].
    discriminate. }
  split; [exact Hok|]. split; [exact Hfresh|].
  exact (proj1 (signup_keeps_users_unique Toy.hash Toy.sign (lit "s2")
                  (Inserted 2 5) 6 (lit "bob@x.org") (lit "bob") (lit "pw2")
                  Toy.ada Hok Hfresh)).
Defined.

Lemma signup_then_login_witness :
  email_used (lit "bob@x.org") Toy.ada = false
  /\ username_used (lit "bob") Toy.ada = false
  /\ Toy.compare (lit "pw2") (Toy.hash (lit "pw2") (lit "s2")) = true
  /\ login Toy.compare Toy.sign true 7 (lit "bob@x.org") (lit "pw2")
       (snd (signup Toy.hash Toy.sign (lit "s2") (Inserted 2 5) 6
               (lit "bob@x.org") (lit "bob") (lit "pw2") Toy.ada))
     = Fulfilled
         (AuthSuccess
            {| Payload.userId := 2; Payload.email := lit "bob@x.org";
               Payload.username := lit "bob" |}
            (lit "bob@x.org")).
Proof.
  split; [reflexivity|]. split; [reflexivity|]. split; [reflexivity|].
  exact (proj1 (proj2 (signup_then_login Toy.hash Toy.compare Toy.sign
                         (lit "s2") 2 5 6 7 (lit "bob@x.org") (lit "bob")
                         (lit "pw2") Toy.ada eq_refl eq_refl eq_refl))).
Defined.

Lemma login_token_opens_profile_witness :
  users_ok Toy.ada
  /\ login Toy.compare Toy.sign true 7 (lit "ada@x.org") (lit "pw1") Toy.ada
     = Fulfilled
         (AuthSuccess
            {| Payload.userId := 1; Payload.email := lit "ada@x.org";
               Payload.username := lit "ada" |}
            (lit "ada@x.org"))
  /\ exists created,
       getProfile (Toy.verify Toy.ada) true 8 (lit "ada@x.org") Toy.ada
       = ProfileSuccess
           {| Profile.id := 1; Profile.email := lit "ada@x.org";
              Profile.username := lit "ada"; Profile.created_at := created |}.
Proof.
  assert (Hok : users_ok Toy.ada).
  { repeat split; (apply NoDup_cons; split;
                   [intros Hin; inversion Hin|constructor]). }
  split; [exact Hok|]. split; [reflexivity|].
  exact (proj1 (login_token_opens_profile Toy.compare Toy.sign
                  (Toy.verify Toy.ada) 7 8 (lit "ada@x.org") (lit "pw1")
                  Toy.ada
                  {| Payload.userId := 1; Payload.email := lit "ada@x.org";
                     Payload.username := lit "ada" |}
                  (lit "ada@x.org") Hok eq_refl eq_refl)).
Defined.

Lemma store_failure_is_swallowed_witness :
  let w := {| readme := ReadmeResponse true (Some api_doc);
              store := Rejects |} in
  fetchReadme (readme w) = Some api_doc
  /\ truthy api_doc = true
  /\ store w = Rejects
  /\ projects (processRepo asciiToLowerCase w (repo 1 60)
                 (idle first_scan_rows))
     = first_scan_rows.
Proof.
  intros w. split; [reflexivity|]. split; [reflexivity|].
  split; [reflexivity|].
  exact (proj1 (store_failure_is_swallowed asciiToLowerCase w (repo 1 60)
                  (idle first_scan_rows) api_doc eq_refl eq_refl eq_refl)).
Defined.

Lemma stop_clears_only_its_timer_witness :
  let rt :=
    occurs asciiToLowerCase
      [StartInitialScan; SchedulePeriodicScan 12 1000 41] (started []) in
  Scanner.scanInterval (scanner (core rt)) = Some 41
  /\ timer_interval 41 (timers rt) = Some 43200000
  /\ Scanner.isScanning (scanner (core (stop rt))) = true
  /\ occur asciiToLowerCase (stop rt) (TimerFires 41 43201000) = stop rt.
Proof.
  intros rt. split; [reflexivity|]. split; [reflexivity|].
  split; [reflexivity|].
  destruct (stop_clears_only_its_timer asciiToLowerCase rt 41 eq_refl)
    as (_ & _ & Hfire & _).
  exact (Hfire 43201000).
Defined.

Lemma second_schedule_orphans_first_timer_witness :
  41 <> 42
  /\ timer_interval 41 (timers (started [])) = None
  /\ timer_interval 41
       (timers
          (stop (schedulePeriodicScan 12 2000 42
                   (schedulePeriodicScan 12 1000 41 (started [])))))
     = Some 43200000.
Proof.
  assert (Hne : 41 <> 42) by discriminate.
  split; [exact Hne|]. split; [reflexivity|].
  exact (proj1 (proj2 (second_schedule_orphans_first_timer asciiToLowerCase
                         (started []) 12 1000 41 12 2000 42 Hne eq_refl))).
Defined.

End MoreWitnesses.
